(** * mediastream: media sources, source dispatcher and server lifecycle

    A shallow embedding of the Go packages [internal/media] and
    [internal/server].  Go values are modelled as follows.

    - [int], [time.Duration] and instants of the monotonic clock are [Z];
      where the source computes on [time.Duration] the 64-bit wrap-around
      and the saturation of [Time.Sub] are written out.
    - [[]byte] is [list byte].
    - A Go function returning [(T, error)] returns a [result T]; a run-time
      panic (index out of range, nil dereference) is the third outcome
      [Panic].  A function returning only [error] returns [option error].
    - A method with a pointer receiver takes the receiver's state and
      returns the new state next to its result.
    - The mutexes only serialise the calls; the model is of one call at a
      time, in the order in which the lock is acquired. *)

From Stdlib Require Import ZArith Lia DecimalString DecimalPos DecimalZ.
From Stdlib.Strings Require Import Byte Ascii String.
From stdpp Require Import base option list strings gmap.

Local Open Scope Z_scope.

(** ** Errors and results *)

(** The fixed part of each [fmt.Errorf] message of the two packages. *)
Inductive context :=
| OpeningImage (path : string)      (* "opening image %q: %w" *)
| DecodingImage (path : string)     (* "decoding image %q: %w" *)
| ReencodingImage                   (* "re-encoding image as JPEG: %w" *)
| OpeningGIF (path : string)        (* "opening GIF %q: %w" *)
| DecodingGIF (path : string)       (* "decoding GIF %q: %w" *)
| EncodingGIFFrame (i : nat)        (* "encoding GIF frame %d: %w" *)
| FfmpegNotFound                    (* "ffmpeg not found in PATH ...: %w" *)
| CreatingStdoutPipe                (* "creating ffmpeg stdout pipe: %w" *)
| StartingFfmpeg                    (* "starting ffmpeg: %w" *)
| ReadingFromFfmpeg                 (* "reading from ffmpeg: %w" *)
| ReadingFrameBody                  (* "reading ffmpeg frame body: %w" *)
| ClosingMediaSource                (* "closing media source: %w" *)
| OpeningMedia.                     (* "opening media: %w" *)

Inductive error :=
| Sys (msg : string)                        (* an error of the Go runtime or of the OS *)
| Wrap (c : context) (cause : error)        (* fmt.Errorf("<c>: %w", cause) *)
| NoFrames (path : string)                  (* "GIF %q contains no frames" *)
| Unsupported (ext : string) (supported : string)
                                            (* "unsupported file type %q - supported formats: %s" *)
| ServerAlreadyRunning.                     (* "server is already running" *)

Inductive result (A : Type) :=
| Ok (a : A)
| Err (e : error)
| Panic.
Arguments Ok {A} a.
Arguments Err {A} e.
Arguments Panic {A}.

Definition isOk {A} (r : result A) : bool :=
  match r with Ok _ => true | _ => false end.

(** Error values of the standard library that the code can meet. *)
Definition EOF : error := Sys "EOF".
Definition ErrNotExist : error := Sys "no such file or directory".
Definition ErrFileClosed : error := Sys "file already closed".
Definition ErrProcessDone : error := Sys "os: process already finished".
Definition ErrExecNotFound : error := Sys "executable file not found in $PATH".

(** The error kinds of the specification.  The source has no error types:
    it reports each kind as one of the messages above. *)
Inductive ErrorKind :=
| FileOpenFailure | DecodeFailure | UnsupportedFormat | DecoderUnavailable
| DecoderStreamClosed | AlreadyRunning | ShutdownFault | OtherFailure.

Definition kindOf (e : error) : ErrorKind :=
  match e with
  | Wrap (OpeningImage _) _ | Wrap (OpeningGIF _) _ => FileOpenFailure
  | Wrap (DecodingImage _) _ | Wrap (DecodingGIF _) _ | NoFrames _ => DecodeFailure
  | Unsupported _ _ => UnsupportedFormat
  | Wrap FfmpegNotFound _ => DecoderUnavailable
  | Wrap ReadingFromFfmpeg _ | Wrap ReadingFrameBody _ => DecoderStreamClosed
  | ServerAlreadyRunning => AlreadyRunning
  | Wrap ClosingMediaSource _ => ShutdownFault
  | _ => OtherFailure
  end.

(** A call that fails with an error of the given kind. *)
Definition failsWith {A} (r : result A) (k : ErrorKind) : Prop :=
  exists e, r = Err e /\ kindOf e = k.

(** ** 64-bit integers and durations *)

Definition maxInt64 : Z := 2 ^ 63 - 1.
Definition minInt64 : Z := - 2 ^ 63.

(** Two's-complement wrap-around of [int64] arithmetic. *)
Definition wrap64 (z : Z) : Z := (z + 2 ^ 63) mod 2 ^ 64 - 2 ^ 63.

Definition Millisecond : Z := 1000000.
Definition Second : Z := 1000000000.

(** [time.Since(t)], which is [time.Now().Sub(t)]: the difference of two
    readings of the monotonic clock in nanoseconds, saturated to the range
    of [time.Duration]. *)
Definition Since (now t : Z) : Z :=
  Z.max minInt64 (Z.min maxInt64 (now - t)).

(** [xs[i]] for a Go [int] index; [None] is the index-out-of-range panic. *)
Definition index_at {A} (xs : list A) (i : Z) : option A :=
  if 0 <=? i then xs !! Z.to_nat i else None.

(** ** Static image source (image.go) *)

Module Image.

Record imageSource := { frame : list byte }.

Definition NextFrame (s : imageSource) : imageSource * result (list byte) :=
  (s, Ok (frame s)).

Definition Close (s : imageSource) : imageSource * option error :=
  (s, None).

(** [n] successive [NextFrame] calls: the final state and the frames
    returned, in call order. *)
Fixpoint NextFrames (n : nat) (s : imageSource)
  : imageSource * list (result (list byte)) :=
  match n with
  | O => (s, [])
  | S n' =>
      let '(s1, r) := NextFrame s in
      let '(s2, rs) := NextFrames n' s1 in
      (s2, r :: rs)
  end.

End Image.

(** ** Animated GIF source (gif.go) *)

Module Gif.

Record gifFrame := { data : list byte; delay : Z }.

Record gifSource := { frames : list gifFrame; index : Z; lastAt : Z }.

(** [NextFrame] reads the clock twice: [now1] is the reading inside
    [time.Since], [now2] the reading of the [time.Now()] stored in
    [lastAt] when the source advances.  The frame is fetched before the
    index moves, and it is the fetched frame whose bytes are returned.
    [s.index + 1] does not overflow: the indexing above it succeeded, so
    [s.index] is below [len(s.frames)], itself an [int]. *)
Definition NextFrame (now1 now2 : Z) (s : gifSource)
  : gifSource * result (list byte) :=
  match index_at (frames s) (index s) with
  | None => (s, Panic)
  | Some frame =>
      let s' :=
        if delay frame <=? Since now1 (lastAt s)
        then {| frames := frames s;
                index := Z.rem (index s + 1) (Z.of_nat (length (frames s)));
                lastAt := now2 |}
        else s in
      (s', Ok (data frame))
  end.

Definition Close (s : gifSource) : gifSource * option error :=
  (s, None).

(** Successive [NextFrame] calls, one per pair of clock readings. *)
Fixpoint NextFrames (clock : list (Z * Z)) (s : gifSource)
  : gifSource * list (result (list byte)) :=
  match clock with
  | [] => (s, [])
  | (now1, now2) :: clock' =>
      let '(s1, r) := NextFrame now1 now2 s in
      let '(s2, rs) := NextFrames clock' s1 in
      (s2, r :: rs)
  end.

(** The invariant of the specification's data model. *)
Definition valid (s : gifSource) : Prop :=
  (1 <= length (frames s))%nat /\ 0 <= index s < Z.of_nat (length (frames s)).

End Gif.

(** ** Video source backed by an FFmpeg process (video.go) *)

Module Video.

(** The read end of the decoder's standard output.  [pending] is what the
    decoder has written and the program has not read yet, as the chunks in
    which successive [read] system calls deliver it; after the last chunk
    the stream is at its end. *)
Record Pipe := { pending : list (list byte); closed : bool }.

Definition pendingBytes (p : Pipe) : nat :=
  length (concat (pending p)).

(** One [Read] into a buffer of [n >= 1] bytes: at most [n] bytes of the
    first chunk that holds any, the rest of that chunk staying in the pipe;
    [EOF] when nothing is left.  A read of an [*os.File] never returns zero
    bytes without an error. *)
Fixpoint readChunks (n : nat) (chunks : list (list byte))
  : list (list byte) * (list byte * option error) :=
  match chunks with
  | [] => ([], ([], Some EOF))
  | c :: rest =>
      match c with
      | [] => readChunks n rest
      | _ :: _ =>
          (match drop n c with [] => rest | c' => c' :: rest end,
           (take n c, None))
      end
  end.

Definition Read (n : nat) (p : Pipe) : Pipe * (list byte * option error) :=
  if closed p then (p, ([], Some ErrFileClosed))
  else
    let '(rest, out) := readChunks n (pending p) in
    ({| pending := rest; closed := closed p |}, out).

(** [readByte]: [io.ReadFull] into a one-byte array.  [ReadFull] repeats
    [Read] only while nothing was read and no error was reported, which
    [Read] above never does; the byte returned next to an error is the zero
    value of the array. *)
Definition readByte (p : Pipe) : Pipe * (byte * option error) :=
  let '(p', (bs, err)) := Read 1 p in
  match bs with
  | b :: _ => (p', (b, None))
  | [] => (p', (x00, err))
  end.

(** [bytes.Index(s, []byte{b1, b2})]: the offset of the first occurrence,
    [None] for Go's [-1]. *)
Fixpoint Index2 (s : list byte) (b1 b2 : byte) : option nat :=
  match s with
  | x :: ((y :: _) as tl) =>
      if Byte.eqb x b1 && Byte.eqb y b2 then Some O
      else S <$> Index2 tl b1 b2
  | _ => None
  end.

(** The [os.Process] of the decoder as far as [Close] observes it. *)
Inductive procState := Running | Exited.

Record Process := { pid : Z; state : procState }.

Record Cmd := { proc : option Process }.

Record videoSource := {
  path : string;
  frameRate : Z;
  cmd : option Cmd;
  stdout : option Pipe;
  buf : list byte
}.

Definition set_stdout (s : videoSource) (p : option Pipe) : videoSource :=
  {| path := path s; frameRate := frameRate s; cmd := cmd s;
     stdout := p; buf := buf s |}.

Definition set_cmd (s : videoSource) (c : option Cmd) : videoSource :=
  {| path := path s; frameRate := frameRate s; cmd := c;
     stdout := stdout s; buf := buf s |}.

(** The inner loop of [NextFrame]: read chunks of up to 4096 bytes onto
    [frame] until the frame holds an EOI marker.  [fuel] bounds the number
    of iterations; [None] is returned when it runs out. *)
Fixpoint readBody (fuel : nat) (p : Pipe) (frame : list byte)
  : option (Pipe * result (list byte)) :=
  match fuel with
  | O => None
  | S fuel' =>
      let '(p', (chunk, err)) := Read 4096 p in
      let frame' := if (0 <? length chunk)%nat then frame ++ chunk else frame in
      match (if (0 <? length chunk)%nat then Index2 frame' xff xd9 else None) with
      | Some idx => Some (p', Ok (take (idx + 2) frame'))
      | None =>
          match err with
          | Some e => Some (p', Err (Wrap ReadingFrameBody e))
          | None => readBody fuel' p' frame'
          end
      end
  end.

(** The outer loop of [NextFrame]: skip bytes up to an SOI marker, then
    read the body. *)
Fixpoint scanSOI (fuel : nat) (p : Pipe) : option (Pipe * result (list byte)) :=
  match fuel with
  | O => None
  | S fuel' =>
      let '(p1, (b, err)) := readByte p in
      match err with
      | Some e => Some (p1, Err (Wrap ReadingFromFfmpeg e))
      | None =>
          if negb (Byte.eqb b xff) then scanSOI fuel' p1
          else
            let '(p2, (b2, err2)) := readByte p1 in
            match err2 with
            | Some e => Some (p2, Err e)
            | None =>
                if negb (Byte.eqb b2 xd8) then scanSOI fuel' p2
                else readBody (S (pendingBytes p2)) p2 [xff; xd8]
            end
      end
  end.

(** [NextFrame].  Every iteration of either loop that does not return
    consumes at least one byte of the pipe, so the bytes pending bound the
    iterations (lemma [NextFrame_total] below). *)
Definition NextFrame (s : videoSource) : videoSource * result (list byte) :=
  match stdout s with
  | None => (s, Panic)
  | Some p =>
      match scanSOI (S (pendingBytes p)) p with
      | Some (p', r) => (set_stdout s (Some p'), r)
      | None => (s, Panic)
      end
  end.

(** [n] successive [NextFrame] calls. *)
Fixpoint NextFrames (n : nat) (s : videoSource)
  : videoSource * list (result (list byte)) :=
  match n with
  | O => (s, [])
  | S n' =>
      let '(s1, r) := NextFrame s in
      let '(s2, rs) := NextFrames n' s1 in
      (s2, r :: rs)
  end.

(** [Process.Kill].  Killing the running child succeeds and ends it.  What
    the call reports for a child that has already exited is decided by the
    operating system and is the parameter [killExited]: the program never
    calls [Wait], so where a signal still reaches the unreaped child the
    call reports success, and where the system refuses to terminate a
    process that has exited the call reports that error. *)
Definition Kill (killExited : option error) (pr : Process)
  : Process * option error :=
  match state pr with
  | Running => ({| pid := pid pr; state := Exited |}, None)
  | Exited => (pr, killExited)
  end.

Definition closePipe (p : Pipe) : Pipe :=
  {| pending := pending p; closed := true |}.

(** [Close]; the error of [s.stdout.Close()] is discarded by the source. *)
Definition Close (killExited : option error) (s : videoSource)
  : videoSource * option error :=
  let s1 := match stdout s with
            | Some p => set_stdout s (Some (closePipe p))
            | None => s
            end in
  match cmd s1 with
  | Some c =>
      match proc c with
      | Some pr =>
          let '(pr', e) := Kill killExited pr in
          (set_cmd s1 (Some {| proc := Some pr' |}), e)
      | None => (s1, None)
      end
  | None => (s1, None)
  end.

End Video.

(** ** The libraries and the host the program runs on *)

(** Library functions whose results the program only passes on: the image
    codecs, the Unicode case tables and the floating-point division behind
    [time.Duration(float64(a) / float64(b))]. *)
Record Runtime := {
  Pixels : Type;
  imageDecode : list byte -> result Pixels;                    (* image.Decode *)
  gifDecodeAll : list byte -> result (list Pixels * list Z);   (* gif.DecodeAll: Image, Delay *)
  jpegEncode : Pixels -> Z -> result (list byte);              (* jpeg.Encode with Quality *)
  durationOfQuotient : Z -> Z -> Z;
  unicodeToLower : string -> string;       (* strings.Map(unicode.ToLower, s) *)
  isPathSeparator : ascii -> bool          (* os.IsPathSeparator *)
}.

(** What the program finds when it constructs a source. *)
Record Host := {
  files : gmap string (list byte);     (* the files os.Open can open *)
  ffmpegPath : option string;          (* exec.LookPath("ffmpeg"), None when it fails *)
  pipeFault : option error;            (* the error of cmd.StdoutPipe, if any *)
  startFault : option error;           (* the error of cmd.Start, if any *)
  decoderOutput : list (list byte);    (* what the started decoder writes *)
  decoderPid : Z;
  now : Z                              (* time.Now() at construction *)
}.

(** [os.Open] followed by reading the file through the returned handle. *)
Definition osOpen (h : Host) (path : string) : result (list byte) :=
  match files h !! path with
  | Some content => Ok content
  | None => Err ErrNotExist
  end.

Module Media.

Import Image Gif Video.

(** The [Source] interface with its three implementations. *)
Inductive Source :=
| ImageSource (s : imageSource)
| GifSource (s : gifSource)
| VideoSource (s : videoSource).

Definition SupportedExtensions : list string :=
  [".jpg"; ".jpeg"; ".png"; ".webp"; ".bmp";
   ".gif";
   ".mp4"; ".mkv"; ".mov"; ".avi";
   ".webm"; ".flv"; ".ts"; ".m4v"].

(** [strings.Join]. *)
Fixpoint Join (elems : list string) (sep : string) : string :=
  match elems with
  | [] => ""
  | [e] => e
  | e :: rest => e +:+ sep +:+ Join rest sep
  end.

Definition isUpper (c : ascii) : bool :=
  (65 <=? nat_of_ascii c)%nat && (nat_of_ascii c <=? 90)%nat.

Definition lowerByte (c : ascii) : ascii :=
  if isUpper c then ascii_of_nat (nat_of_ascii c + 32) else c.

Definition isASCII (s : string) : bool :=
  forallb (fun c => (nat_of_ascii c <? 128)%nat) (list_ascii_of_string s).

(** An ASCII byte that is not an upper-case letter. *)
Definition lowerASCII (c : ascii) : bool :=
  negb (isUpper c) && (nat_of_ascii c <? 128)%nat.

(** Two bytes that are equal, or the upper-case and the lower-case form of
    one ASCII letter. *)
Definition sameLetter (x y : ascii) : bool :=
  Ascii.eqb x y
  || (isUpper x && (nat_of_ascii y =? nat_of_ascii x + 32)%nat)
  || (isUpper y && (nat_of_ascii x =? nat_of_ascii y + 32)%nat).

(** Equality of two strings up to the case of their ASCII letters: the
    sense in which the specification calls the extension match
    case-insensitive. *)
Fixpoint sameUpToCase (a b : string) : bool :=
  match a, b with
  | EmptyString, EmptyString => true
  | String x a', String y b' => sameLetter x y && sameUpToCase a' b'
  | _, _ => false
  end.

Section WithRuntime.

Variable rt : Runtime.

(** [filepath.Ext]: the loop runs from the last byte of the path down to
    the last path separator and returns the suffix that starts at the first
    dot it meets.  [before] is the part of the path not yet visited, last
    byte first; [after] is the part already visited. *)
Fixpoint extScan (before : list ascii) (after : list ascii) : list ascii :=
  match before with
  | [] => []
  | c :: before' =>
      if isPathSeparator rt c then []
      else if Ascii.eqb c "."%char then c :: after
      else extScan before' (c :: after)
  end.

Definition Ext (path : string) : string :=
  string_of_list_ascii (extScan (rev (list_ascii_of_string path)) []).

(** [strings.ToLower]: byte-wise on an all-ASCII string, through the
    Unicode tables otherwise. *)
Definition ToLower (s : string) : string :=
  if isASCII s
  then string_of_list_ascii (map lowerByte (list_ascii_of_string s))
  else unicodeToLower rt s.

Definition newImageSource (h : Host) (path : string) : result imageSource :=
  match osOpen h path with
  | Panic => Panic
  | Err e => Err (Wrap (OpeningImage path) e)
  | Ok content =>
      match imageDecode rt content with
      | Panic => Panic
      | Err e => Err (Wrap (DecodingImage path) e)
      | Ok img =>
          match jpegEncode rt img 92 with
          | Panic => Panic
          | Err e => Err (Wrap ReencodingImage e)
          | Ok jpg => Ok {| frame := jpg |}
          end
      end
  end.

(** [time.Duration(d) * 10 * time.Millisecond]: a GIF delay, in hundredths
    of a second, as a duration. *)
Definition delayOfCentiseconds (d : Z) : Z :=
  wrap64 (wrap64 (d * 10) * Millisecond).

(** The loop of [newGIFSource] over [g.Image]; [i] is the loop index and
    [acc] the frames appended so far. *)
Fixpoint encodeFrames (images : list (Pixels rt)) (delays : list Z)
    (fallbackDelay : Z) (i : nat) (acc : list gifFrame)
  : result (list gifFrame) :=
  match images with
  | [] => Ok acc
  | img :: images' =>
      match jpegEncode rt img 90 with
      | Panic => Panic
      | Err e => Err (Wrap (EncodingGIFFrame i) e)
      | Ok jpg =>
          match delays !! i with
          | None => Panic
          | Some d =>
              let delay := delayOfCentiseconds d in
              let delay := if delay =? 0 then fallbackDelay else delay in
              encodeFrames images' delays fallbackDelay (S i)
                (acc ++ [{| data := jpg; delay := delay |}])
          end
      end
  end.

Definition newGIFSource (h : Host) (path : string) (frameRate : Z)
  : result gifSource :=
  match osOpen h path with
  | Panic => Panic
  | Err e => Err (Wrap (OpeningGIF path) e)
  | Ok content =>
      match gifDecodeAll rt content with
      | Panic => Panic
      | Err e => Err (Wrap (DecodingGIF path) e)
      | Ok (images, delays) =>
          if (length images =? 0)%nat then Err (NoFrames path)
          else
            let fallbackDelay := durationOfQuotient rt Second frameRate in
            match encodeFrames images delays fallbackDelay O [] with
            | Panic => Panic
            | Err e => Err e
            | Ok frames => Ok {| frames := frames; index := 0; lastAt := now h |}
            end
      end
  end.

(** [spawn]: the FFmpeg command line is fixed but for the input path and
    the frame rate, which the source holds already. *)
Definition spawn (h : Host) (s : videoSource) : videoSource * option error :=
  match pipeFault h with
  | Some e => (s, Some (Wrap CreatingStdoutPipe e))
  | None =>
      match startFault h with
      | Some e => (s, Some (Wrap StartingFfmpeg e))
      | None =>
          ({| Video.path := Video.path s; frameRate := frameRate s;
              cmd := Some {| proc := Some {| pid := decoderPid h; state := Running |} |};
              stdout := Some {| pending := decoderOutput h; closed := false |};
              buf := buf s |},
           None)
      end
  end.

Definition newVideoSource (h : Host) (path : string) (frameRate : Z)
  : result videoSource :=
  match ffmpegPath h with
  | None => Err (Wrap FfmpegNotFound ErrExecNotFound)
  | Some _ =>
      let s := {| Video.path := path; frameRate := frameRate;
                  cmd := None; stdout := None; buf := [] |} in
      match spawn h s with
      | (_, Some e) => Err e
      | (s', None) => Ok s'
      end
  end.

(** The extensions listed in the three [case] clauses of [Open]. *)
Definition staticExts : list string := [".jpg"; ".jpeg"; ".png"; ".webp"; ".bmp"].
Definition gifExts : list string := [".gif"].
Definition videoExts : list string :=
  [".mp4"; ".mkv"; ".mov"; ".avi"; ".webm"; ".flv"; ".ts"; ".m4v"].

Definition mapResult {A B} (f : A -> B) (r : result A) : result B :=
  match r with
  | Ok a => Ok (f a)
  | Err e => Err e
  | Panic => Panic
  end.

(** [Open]: the [switch] on the lower-cased extension. *)
Definition Open (h : Host) (path : string) (frameRate : Z) : result Source :=
  let ext := ToLower (Ext path) in
  if bool_decide (ext ∈ staticExts) then
    mapResult ImageSource (newImageSource h path)
  else if bool_decide (ext ∈ gifExts) then
    mapResult GifSource (newGIFSource h path frameRate)
  else if bool_decide (ext ∈ videoExts) then
    mapResult VideoSource (newVideoSource h path frameRate)
  else Err (Unsupported ext (Join SupportedExtensions ", ")).

End WithRuntime.

(** The methods of the interface, dispatched on the implementation.  The
    clock readings are used by the GIF source only, the operating system's
    answer to killing an exited process by the video source only. *)
Definition NextFrame (now1 now2 : Z) (src : Source) : Source * result (list byte) :=
  match src with
  | ImageSource s => let '(s', r) := Image.NextFrame s in (ImageSource s', r)
  | GifSource s => let '(s', r) := Gif.NextFrame now1 now2 s in (GifSource s', r)
  | VideoSource s => let '(s', r) := Video.NextFrame s in (VideoSource s', r)
  end.

Definition Close (killExited : option error) (src : Source) : Source * option error :=
  match src with
  | ImageSource s => let '(s', e) := Image.Close s in (ImageSource s', e)
  | GifSource s => let '(s', e) := Gif.Close s in (GifSource s', e)
  | VideoSource s => let '(s', e) := Video.Close killExited s in (VideoSource s', e)
  end.

(** Successive [NextFrame] calls through the interface, one per pair of
    clock readings. *)
Fixpoint NextFrames (clock : list (Z * Z)) (src : Source)
  : Source * list (result (list byte)) :=
  match clock with
  | [] => (src, [])
  | (now1, now2) :: clock' =>
      let '(src1, r) := NextFrame now1 now2 src in
      let '(src2, rs) := NextFrames clock' src1 in
      (src2, r :: rs)
  end.

Definition isVideo (src : Source) : bool :=
  match src with VideoSource _ => true | _ => false end.

End Media.

(** ** HTTP server lifecycle (server.go) *)

Module Server.

Record Config := { FilePath : string; Port : Z; FrameRate : Z }.

Record httpServer := { Addr : Z }.

Record Server := {
  cfg : Config;
  source : Media.Source;
  httpSrv : option httpServer;
  started : bool;
  cancel : bool            (* whether s.cancel is set *)
}.

(** What the calls into the HTTP server and the operating system report. *)
Record Env := {
  killExited : option error;       (* Process.Kill on an exited decoder *)
  shutdownFault : option error;    (* the error of httpSrv.Shutdown, if any *)
  serveFault : error               (* the error ListenAndServe ends with *)
}.

(** The calls a lifecycle method makes on what the session owns. *)
Inductive Event :=
| ListenAndServe (port : Z)
| CancelContext
| CloseSource
| ShutdownListener.

(** [New] *)
Definition New (rt : Runtime) (h : Host) (c : Config) : result Server :=
  let c := if FrameRate c =? 0
           then {| FilePath := FilePath c; Port := Port c; FrameRate := 30 |}
           else c in
  match Media.Open rt h (FilePath c) (FrameRate c) with
  | Panic => Panic
  | Err e => Err (Wrap OpeningMedia e)
  | Ok src =>
      Ok {| cfg := c; source := src; httpSrv := None;
            started := false; cancel := false |}
  end.

(** [Start].  The state returned is the one left by the locked section;
    the error is the one [ListenAndServe] ends with. *)
Definition Start (env : Env) (s : Server) : Server * result unit * list Event :=
  if started s then (s, Err ServerAlreadyRunning, [])
  else
    ({| cfg := cfg s; source := source s;
        httpSrv := Some {| Addr := Port (cfg s) |};
        started := true; cancel := true |},
     Err (serveFault env),
     [ListenAndServe (Port (cfg s))]).

(** [Stop] *)
Definition Stop (env : Env) (s : Server) : Server * result unit * list Event :=
  if negb (started s) then (s, Ok tt, [])
  else
    let cancelled := if cancel s then [CancelContext] else [] in
    let '(src', closeErr) := Media.Close (killExited env) (source s) in
    let s' := {| cfg := cfg s; source := src'; httpSrv := httpSrv s;
                 started := false; cancel := cancel s |} in
    match closeErr with
    | Some e => (s', Err (Wrap ClosingMediaSource e), cancelled ++ [CloseSource])
    | None =>
        match httpSrv s with
        | None => (s', Panic, cancelled ++ [CloseSource])
        | Some _ =>
            (s',
             match shutdownFault env with Some e => Err e | None => Ok tt end,
             cancelled ++ [CloseSource; ShutdownListener])
        end
    end.

Definition IsRunning (s : Server) : bool := started s.

(** The tick interval of [handleStream]. *)
Definition tickInterval (rt : Runtime) (s : Server) : Z :=
  durationOfQuotient rt Second (FrameRate (cfg s)).

End Server.

(** ** Sample values *)

Module Samples.

Import Image Gif Video Media Server.

(** A GIF source of two frames of 100 ns each, at its first frame since
    instant 0. *)
Definition twoFrames : gifSource :=
  {| frames := [ {| data := [x01]; delay := 100 |};
                 {| data := [x02]; delay := 100 |} ];
     index := 0; lastAt := 0 |}.

(** Two minimal JPEG images: SOI, one byte of content, EOI. *)
Definition jpegA : list byte := [xff; xd8; x01; xff; xd9].
Definition jpegB : list byte := [xff; xd8; x02; xff; xd9].

(** A runtime whose codecs are simple enough to evaluate: every byte of a
    GIF file is one frame with no authored delay, and encoding a picture
    frames its bytes with SOI and EOI. *)
Definition toyRuntime : Runtime :=
  {| Pixels := list byte;
     imageDecode := fun content => Ok content;
     gifDecodeAll := fun content =>
       Ok (map (fun b => [b]) content, map (fun _ => 0) content);
     jpegEncode := fun px _ => Ok ([xff; xd8] ++ px ++ [xff; xd9]);
     durationOfQuotient := Z.quot;
     unicodeToLower := fun s => s;
     isPathSeparator := fun c => Ascii.eqb c "/"%char |}.

(** A host with one image and one GIF file and a decoder that writes
    [jpegA] and [jpegB] back to back, delivered by one read. *)
Definition studio : Host :=
  {| files := {[ "/media/still.jpg" := [x01] ; "/media/loop.gif" := [x01; x02] ]};
     ffmpegPath := Some "/usr/bin/ffmpeg";
     pipeFault := None;
     startFault := None;
     decoderOutput := [jpegA ++ jpegB];
     decoderPid := 4242;
     now := 0 |}.

(** The same host without FFmpeg on its [PATH]. *)
Definition studioNoFfmpeg : Host :=
  {| files := files studio;
     ffmpegPath := None;
     pipeFault := None;
     startFault := None;
     decoderOutput := [];
     decoderPid := 0;
     now := 0 |}.

(** A video source reading the given chunks from its decoder. *)
Definition videoReading (chunks : list (list byte)) (st : procState) : videoSource :=
  {| Video.path := "/media/clip.mp4"; frameRate := 30;
     cmd := Some {| proc := Some {| pid := 4242; state := st |} |};
     stdout := Some {| pending := chunks; closed := false |};
     buf := [] |}.

(** An operating system that refuses to kill a process that has exited. *)
Definition strictEnv : Env :=
  {| killExited := Some ErrProcessDone;
     shutdownFault := None;
     serveFault := Sys "http: Server closed" |}.

(** A running session whose decoder has exited on its own. *)
Definition liveSession : Server :=
  {| cfg := {| FilePath := "/media/clip.mp4"; Port := 8080; FrameRate := 30 |};
     source := VideoSource (videoReading [] Exited);
     httpSrv := Some {| Addr := 8080 |};
     started := true;
     cancel := true |}.

(** A session that was created and not started. *)
Definition idleSession : Server :=
  {| cfg := {| FilePath := "/media/still.jpg"; Port := 8080; FrameRate := 30 |};
     source := ImageSource {| frame := jpegA |};
     httpSrv := None;
     started := false;
     cancel := false |}.

End Samples.

(** ** The streaming handler (server.go) *)

Module Stream.

Import Media Server.

Definition CRLF : string := String "013"%char (String "010"%char "").

(** The verb [%d] of [fmt]: decimal digits, with a minus sign for a
    negative number. *)
Definition formatInt (z : Z) : string :=
  NilZero.string_of_int (Z.to_int z).

(** What a handler has done to its [http.ResponseWriter].  The errors of
    the writes are ignored by the source, so the body is what the handler
    has written, whether or not the client still reads it. *)
Record ResponseWriter := {
  header : gmap string string;         (* w.Header() *)
  body : list byte;                    (* the bytes written *)
  flushes : nat;                       (* calls of Flush *)
  errorReply : option (string * Z);    (* the arguments of http.Error, if called *)
  canFlush : bool                      (* whether w is an http.Flusher *)
}.

Definition setHeader (k v : string) (w : ResponseWriter) : ResponseWriter :=
  {| header := <[k := v]> (header w); body := body w; flushes := flushes w;
     errorReply := errorReply w; canFlush := canFlush w |}.

Definition write (bs : list byte) (w : ResponseWriter) : ResponseWriter :=
  {| header := header w; body := body w ++ bs; flushes := flushes w;
     errorReply := errorReply w; canFlush := canFlush w |}.

Definition flush (w : ResponseWriter) : ResponseWriter :=
  {| header := header w; body := body w; flushes := S (flushes w);
     errorReply := errorReply w; canFlush := canFlush w |}.

Definition httpError (msg : string) (code : Z) (w : ResponseWriter) : ResponseWriter :=
  {| header := header w; body := body w; flushes := flushes w;
     errorReply := Some (msg, code); canFlush := canFlush w |}.

(** The five writes of one frame: boundary line, content type, content
    length, the frame and the closing line break. *)
Definition partHeader (frame : list byte) : list byte :=
  list_byte_of_string ("--mjpegframe" +:+ CRLF)
  ++ list_byte_of_string ("Content-Type: image/jpeg" +:+ CRLF)
  ++ list_byte_of_string
       ("Content-Length: " +:+ formatInt (Z.of_nat (length frame)) +:+ CRLF +:+ CRLF).

Definition part (frame : list byte) : list byte :=
  partHeader frame ++ frame ++ list_byte_of_string CRLF.

(** Which case of the [select] fires, in the order in which the handler
    meets them: the request context is done, or the ticker ticks.  The two
    clock readings of a tick are those of the [NextFrame] call it makes. *)
Inductive Signal := Done | Tick (now1 now2 : Z).

(** How far the handler got: it returned, it panicked, or it is blocked in
    the [select] after the last signal given. *)
Inductive Outcome := Returned | Panicked | Waiting.

(** The [for]/[select] loop of [handleStream]. *)
Fixpoint streamLoop (signals : list Signal) (src : Source) (w : ResponseWriter)
  : Source * ResponseWriter * Outcome :=
  match signals with
  | [] => (src, w, Waiting)
  | Done :: _ => (src, w, Returned)
  | Tick now1 now2 :: signals' =>
      let '(src', r) := NextFrame now1 now2 src in
      match r with
      | Panic => (src', w, Panicked)
      | Err _ => (src', w, Returned)
      | Ok frame => streamLoop signals' src' (flush (write (part frame) w))
      end
  end.

Definition set_source (s : Server) (src : Source) : Server :=
  {| cfg := cfg s; source := src; httpSrv := httpSrv s;
     started := started s; cancel := cancel s |}.

(** [handleStream].  [time.NewTicker] panics on an interval that is not
    positive. *)
Definition handleStream (rt : Runtime) (signals : list Signal) (s : Server)
    (w : ResponseWriter) : Server * ResponseWriter * Outcome :=
  let w := setHeader "Content-Type" "multipart/x-mixed-replace; boundary=mjpegframe" w in
  let w := setHeader "Cache-Control" "no-cache, no-store, must-revalidate" w in
  let w := setHeader "Connection" "keep-alive" w in
  if negb (canFlush w) then
    (s, httpError "streaming not supported by this client" 500 w, Returned)
  else if tickInterval rt s <=? 0 then (s, w, Panicked)
  else
    let '(src', w', out) := streamLoop signals (source s) w in
    (set_source s src', w', out).

(** The frames of the [NextFrame] calls of a run that returned one, up to
    the first call that did not. *)
Fixpoint framesUntilFailure (rs : list (result (list byte))) : list (list byte) :=
  match rs with
  | Ok f :: rs' => f :: framesUntilFailure rs'
  | _ => []
  end.

(** The clock readings of the ticks that precede the first [Done]. *)
Fixpoint ticksBeforeDone (signals : list Signal) : list (Z * Z) :=
  match signals with
  | Tick now1 now2 :: signals' => (now1, now2) :: ticksBeforeDone signals'
  | _ => []
  end.

End Stream.

(** ** Vocabulary of the properties *)

Module Playback.

Import Gif.

(** Every call of a run finds the delay of the current frame elapsed. *)
Fixpoint allElapsed (clock : list (Z * Z)) (s : gifSource) : bool :=
  match clock with
  | [] => true
  | (now1, now2) :: clock' =>
      match index_at (frames s) (index s) with
      | Some fr =>
          (delay fr <=? Since now1 (lastAt s))
          && allElapsed clock' (NextFrame now1 now2 s).1
      | None => false
      end
  end.

(** The frame at position [k] after the current one, cyclically. *)
Definition frameAfter (s : gifSource) (k : nat) : option gifFrame :=
  index_at (frames s) ((index s + Z.of_nat k) mod Z.of_nat (length (frames s))).

End Playback.

Module Demux.

Import Video.

(** A byte string that [NextFrame] takes for one image: it starts with
    the SOI marker and its first EOI marker is its end. *)
Definition isJPEG (f : list byte) : Prop :=
  (exists body, f = xff :: xd8 :: body) /\
  Index2 f xff xd9 = Some (length f - 2)%nat.

(** The chunks [cs] deliver, in reads that do not run past its end, the
    image [f] preceded by the bytes [junk], none of which is [0xFF]. *)
Definition delivers (junk f : list byte) (cs : list (list byte)) : Prop :=
  Forall (fun c => c <> []) cs /\
  concat cs = junk ++ f /\
  Forall (fun b => b <> xff) junk /\
  isJPEG f.

(** A video source that reads [chunks] from a pipe that is open. *)
Definition reading (s : videoSource) (chunks : list (list byte)) : videoSource :=
  set_stdout s (Some {| pending := chunks; closed := false |}).

End Demux.

(** * Properties *)

(** ** Static image source *)

Module ImageFacts.

Import Image.

(** C8: every [NextFrame] call of a static image source returns the same
    bytes, the ones fixed at construction, and leaves the source as it
    was: [n] successive calls return [n] copies of [frame s] and end in
    the state [s]. *)
Theorem image_NextFrame_constant (s : imageSource) (n : nat) :
  NextFrames n s = (s, replicate n (Ok (frame s))).
Proof.
  induction n as [|n IH]; simpl.
  - reflexivity.
  - rewrite IH. reflexivity.
Qed.

End ImageFacts.

(** ** Animated GIF source *)

Module GifFacts.

Import Gif Samples.

Lemma index_at_Some {A} (xs : list A) (i : Z) (x : A) :
  index_at xs i = Some x -> 0 <= i < Z.of_nat (length xs).
Proof.
  unfold index_at. destruct (Z.leb_spec 0 i) as [Hi|Hi]; [|discriminate].
  intros Hx. apply lookup_lt_Some in Hx. lia.
Qed.

Lemma index_at_valid {A} (xs : list A) (i : Z) :
  0 <= i < Z.of_nat (length xs) -> exists x, index_at xs i = Some x.
Proof.
  intros [H0 Hlt]. unfold index_at.
  destruct (Z.leb_spec 0 i) as [_|Hi]; [|lia].
  destruct (lookup_lt_is_Some_2 xs (Z.to_nat i)) as [x Hx]; [lia|].
  exists x. exact Hx.
Qed.

(** Go's [%] on a non-negative dividend and a positive divisor is the
    mathematical remainder. *)
Lemma rem_succ_range (i n : Z) :
  0 <= i < n -> Z.rem (i + 1) n = (i + 1) mod n /\ 0 <= Z.rem (i + 1) n < n.
Proof.
  intros Hi. rewrite Z.rem_mod_nonneg by lia.
  split; [reflexivity|]. apply Z.mod_pos_bound. lia.
Qed.

(** What one call does, by cases on the elapsed time. *)
Lemma NextFrame_cases (now1 now2 : Z) (s : gifSource) (fr : gifFrame) :
  index_at (frames s) (index s) = Some fr ->
  NextFrame now1 now2 s =
    (if delay fr <=? Since now1 (lastAt s)
     then {| frames := frames s;
             index := (index s + 1) mod Z.of_nat (length (frames s));
             lastAt := now2 |}
     else s,
     Ok (data fr)).
Proof.
  intros Hfr. unfold NextFrame. rewrite Hfr.
  destruct (rem_succ_range (index s) (Z.of_nat (length (frames s)))) as [-> _].
  - eapply index_at_Some, Hfr.
  - reflexivity.
Qed.

Lemma NextFrame_valid (now1 now2 : Z) (s : gifSource) :
  valid s ->
  valid (NextFrame now1 now2 s).1 /\
  frames (NextFrame now1 now2 s).1 = frames s /\
  (index (NextFrame now1 now2 s).1 = index s \/
   index (NextFrame now1 now2 s).1 = (index s + 1) mod Z.of_nat (length (frames s))) /\
  isOk (NextFrame now1 now2 s).2 = true.
Proof.
  intros [Hlen Hidx].
  destruct (index_at_valid (frames s) (index s) Hidx) as [fr Hfr].
  rewrite (NextFrame_cases now1 now2 s fr Hfr).
  destruct (delay fr <=? Since now1 (lastAt s)); simpl.
  - split; [|split; [reflexivity|split; [right; reflexivity|reflexivity]]].
    split; simpl; [exact Hlen|]. apply Z.mod_pos_bound. lia.
  - split; [|split; [reflexivity|split; [left; reflexivity|reflexivity]]].
    split; assumption.
Qed.

Lemma NextFrames_valid (clock : list (Z * Z)) (s : gifSource) :
  valid s ->
  valid (NextFrames clock s).1 /\
  frames (NextFrames clock s).1 = frames s /\
  Forall (fun r => isOk r = true) (NextFrames clock s).2.
Proof.
  revert s. induction clock as [|[now1 now2] clock IH]; intros s Hs; simpl.
  - split; [exact Hs|]. split; [reflexivity|constructor].
  - destruct (NextFrame_valid now1 now2 s Hs) as (Hv & Hf & _ & Hok).
    destruct (NextFrame now1 now2 s) as [s1 r] eqn:E1. simpl in *.
    destruct (IH s1 Hv) as (Hv2 & Hf2 & Hok2).
    destruct (NextFrames clock s1) as [s2 rs] eqn:E2. simpl in *.
    split; [exact Hv2|]. split; [congruence|].
    constructor; assumption.
Qed.

(** C1, as stated, fails: when the delay of the current frame has elapsed,
    the bytes returned are not always those of the frame the index selects
    after the advance.  On [twoFrames] the call made at instant 100 moves
    the index to the second frame and returns the first frame's bytes. *)
Lemma gif_NextFrame_not_advanced_frame :
  ~ (forall (now1 now2 : Z) (s : gifSource) (fr : gifFrame),
        index_at (frames s) (index s) = Some fr ->
        delay fr <= Since now1 (lastAt s) ->
        exists fr',
          index_at (frames (NextFrame now1 now2 s).1)
                   (index (NextFrame now1 now2 s).1) = Some fr' /\
          (NextFrame now1 now2 s).2 = Ok (data fr')).
Proof.
  intros H.
  destruct (H 100 100 twoFrames {| data := [x01]; delay := 100 |})
    as (fr' & Hfr' & Hret).
  - reflexivity.
  - vm_compute. discriminate.
  - vm_compute in Hfr'. vm_compute in Hret.
    injection Hfr' as <-. discriminate Hret.
Qed.

(** C1, amended: when the time elapsed since [lastAt] is at least the delay
    of the current frame, the index advances by one modulo the frame
    count, [lastAt] is set to the clock reading taken at the advance, and
    the call returns the bytes of the frame that was current before the
    advance. *)
Theorem gif_NextFrame_elapsed (now1 now2 : Z) (s : gifSource) (fr : gifFrame) :
  index_at (frames s) (index s) = Some fr ->
  delay fr <= Since now1 (lastAt s) ->
  NextFrame now1 now2 s =
    ({| frames := frames s;
        index := (index s + 1) mod Z.of_nat (length (frames s));
        lastAt := now2 |},
     Ok (data fr)).
Proof.
  intros Hfr Hel. rewrite (NextFrame_cases now1 now2 s fr Hfr).
  destruct (Z.leb_spec (delay fr) (Since now1 (lastAt s))) as [_|Hlt]; [reflexivity|lia].
Qed.

Lemma gif_NextFrame_elapsed_witness :
  NextFrame 100 101 twoFrames =
    ({| frames := frames twoFrames; index := 1; lastAt := 101 |}, Ok [x01]).
Proof.
  apply (gif_NextFrame_elapsed 100 101 twoFrames {| data := [x01]; delay := 100 |}).
  - reflexivity.
  - vm_compute. discriminate.
Defined.

End GifFacts.

(** ** Construction and the source interface *)

Module MediaFacts.

Import Image Gif Video Media Samples.

Lemma encodeFrames_length (rt : Runtime) (images : list (Pixels rt))
    (delays : list Z) (fallbackDelay : Z) (i : nat) (acc out : list gifFrame) :
  encodeFrames rt images delays fallbackDelay i acc = Ok out ->
  length out = (length acc + length images)%nat.
Proof.
  revert i acc. induction images as [|img images IH]; intros i acc; simpl.
  - intros [= <-]. lia.
  - destruct (jpegEncode rt img 90) as [jpg|e|]; try discriminate.
    destruct (delays !! i) as [d|]; try discriminate.
    intros H. apply IH in H. rewrite length_app in H. simpl in H. lia.
Qed.

(** Every frame built by the loop carries its authored delay, or the
    fallback when the authored delay is zero. *)
Lemma encodeFrames_delays (rt : Runtime) (images : list (Pixels rt))
    (delays : list Z) (fallbackDelay : Z) (i : nat) (acc out : list gifFrame) :
  let built fr :=
    exists d, delay fr = if delayOfCentiseconds d =? 0 then fallbackDelay
                         else delayOfCentiseconds d in
  encodeFrames rt images delays fallbackDelay i acc = Ok out ->
  Forall built acc -> Forall built out.
Proof.
  intros built. revert i acc. induction images as [|img images IH]; intros i acc; simpl.
  - intros [= <-] Hacc. exact Hacc.
  - destruct (jpegEncode rt img 90) as [jpg|e|]; try discriminate.
    destruct (delays !! i) as [d|]; try discriminate.
    intros H Hacc. apply IH in H; [exact H|].
    apply Forall_app. split; [exact Hacc|].
    constructor; [|constructor]. exists d. reflexivity.
Qed.

Lemma newGIFSource_delays (rt : Runtime) (h : Host) (path : string)
    (frameRate : Z) (s : gifSource) :
  newGIFSource rt h path frameRate = Ok s ->
  Forall (fun fr =>
            exists d, delay fr =
              if delayOfCentiseconds d =? 0
              then durationOfQuotient rt Second frameRate
              else delayOfCentiseconds d)
         (frames s).
Proof.
  unfold newGIFSource.
  destruct (osOpen h path) as [content|e|]; try discriminate.
  destruct (gifDecodeAll rt content) as [[images delays]|e|]; try discriminate.
  destruct (length images =? 0)%nat; try discriminate.
  destruct (encodeFrames rt images delays _ 0 []) as [out|e|] eqn:Henc;
    try discriminate.
  intros [= <-]. simpl.
  eapply encodeFrames_delays; [exact Henc|constructor].
Qed.

Lemma newGIFSource_valid (rt : Runtime) (h : Host) (path : string)
    (frameRate : Z) (s : gifSource) :
  newGIFSource rt h path frameRate = Ok s -> valid s /\ index s = 0.
Proof.
  unfold newGIFSource.
  destruct (osOpen h path) as [content|e|]; try discriminate.
  destruct (gifDecodeAll rt content) as [[images delays]|e|]; try discriminate.
  destruct (Nat.eqb_spec (length images) 0) as [|Hne]; try discriminate.
  destruct (encodeFrames rt images delays _ 0 []) as [out|e|] eqn:Henc;
    try discriminate.
  intros [= <-]. apply encodeFrames_length in Henc. simpl in *.
  unfold valid; simpl. repeat split; lia.
Qed.

(** A source that [Open] returns comes from the constructor of its kind. *)
Lemma Open_Ok_inv (rt : Runtime) (h : Host) (path : string) (frameRate : Z)
    (src : Source) :
  Open rt h path frameRate = Ok src ->
  match src with
  | ImageSource s => newImageSource rt h path = Ok s
  | GifSource s => newGIFSource rt h path frameRate = Ok s
  | VideoSource s => newVideoSource h path frameRate = Ok s
  end.
Proof.
  unfold Open.
  repeat case_bool_decide.
  all: try discriminate.
  all: unfold mapResult.
  - destruct (newImageSource rt h path); try discriminate. intros [= <-]. reflexivity.
  - destruct (newGIFSource rt h path frameRate); try discriminate. intros [= <-]. reflexivity.
  - destruct (newVideoSource h path frameRate); try discriminate. intros [= <-]. reflexivity.
Qed.

Lemma gif_NextFrames_lift (clock : list (Z * Z)) (s : gifSource) :
  Media.NextFrames clock (GifSource s) =
    (GifSource (Gif.NextFrames clock s).1, (Gif.NextFrames clock s).2).
Proof.
  revert s. induction clock as [|[now1 now2] clock IH]; intros s; simpl.
  - reflexivity.
  - destruct (Gif.NextFrame now1 now2 s) as [s1 r].
    rewrite IH. destruct (Gif.NextFrames clock s1) as [s2 rs]. reflexivity.
Qed.

Lemma image_NextFrames_lift (clock : list (Z * Z)) (s : imageSource) :
  Media.NextFrames clock (ImageSource s) =
    (ImageSource s, replicate (length clock) (Ok (frame s))).
Proof.
  induction clock as [|[now1 now2] clock IH]; simpl.
  - reflexivity.
  - rewrite IH. reflexivity.
Qed.

(** C7: a GIF source that was constructed successfully has at least one
    frame and a valid index, and after any number of [NextFrame] calls a
    further call leaves at least one frame, keeps the index within
    [0, frameCount) and moves it by at most one position modulo the frame
    count, whatever the clock readings are. *)
Theorem gif_index_invariant (rt : Runtime) (h : Host) (path : string)
    (frameRate : Z) (s0 : gifSource) :
  newGIFSource rt h path frameRate = Ok s0 ->
  valid s0 /\
  forall (clock : list (Z * Z)) (now1 now2 : Z),
    let s := (Gif.NextFrames clock s0).1 in
    let s' := (Gif.NextFrame now1 now2 s).1 in
    valid s' /\
    (index s' = index s \/
     index s' = (index s + 1) mod Z.of_nat (length (frames s))).
Proof.
  intros Hnew. apply newGIFSource_valid in Hnew as [Hv _].
  split; [exact Hv|]. intros clock now1 now2 s s'.
  destruct (GifFacts.NextFrames_valid clock s0 Hv) as (Hs & _ & _).
  destruct (GifFacts.NextFrame_valid now1 now2 s Hs) as (Hs' & _ & Hstep & _).
  split; assumption.
Qed.

Lemma gif_index_invariant_witness :
  exists s0,
    newGIFSource toyRuntime studio "/media/loop.gif" 30 = Ok s0 /\ valid s0.
Proof.
  eexists. split.
  - vm_compute. reflexivity.
  - apply (gif_index_invariant toyRuntime studio "/media/loop.gif" 30).
    vm_compute. reflexivity.
Defined.

(** C10: for a source that [Open] returned and that is a static image or a
    GIF source, every [NextFrame] call returns a frame and no error, and
    [Close], after any number of such calls, returns no error and leaves
    the source as it was, so that the calls that follow it do the same. *)
Theorem image_gif_never_fail (rt : Runtime) (h : Host) (path : string)
    (frameRate : Z) (src : Source) :
  Open rt h path frameRate = Ok src ->
  isVideo src = false ->
  forall (killExited : option error) (clock : list (Z * Z)),
    Forall (fun r => isOk r = true) (Media.NextFrames clock src).2 /\
    Media.Close killExited (Media.NextFrames clock src).1 =
      ((Media.NextFrames clock src).1, None).
Proof.
  intros Hopen Hkind killExited clock.
  apply Open_Ok_inv in Hopen.
  destruct src as [s|s|s]; [| |discriminate Hkind].
  - rewrite image_NextFrames_lift. simpl. split; [|reflexivity].
    apply Forall_replicate. reflexivity.
  - apply newGIFSource_valid in Hopen as [Hv _].
    rewrite gif_NextFrames_lift. simpl. split; [|reflexivity].
    apply (GifFacts.NextFrames_valid clock s Hv).
Qed.

Lemma image_gif_never_fail_witness :
  exists src,
    Open toyRuntime studio "/media/loop.gif" 30 = Ok src /\
    Forall (fun r => isOk r = true)
           (Media.NextFrames [(50, 50); (33333400, 33333401)] src).2.
Proof.
  eexists. split.
  - vm_compute. reflexivity.
  - apply (image_gif_never_fail toyRuntime studio "/media/loop.gif" 30 _
             ltac:(vm_compute; reflexivity) eq_refl None).
Defined.

(** *** The dispatcher *)

Lemma sameLetter_lower (x y : ascii) :
  sameLetter x y = true -> isUpper y = false -> (nat_of_ascii y < 128)%nat ->
  lowerByte x = y /\ (nat_of_ascii x < 128)%nat.
Proof.
  unfold sameLetter, lowerByte. intros H Hy Hlt. rewrite Hy in H. simpl in H.
  rewrite orb_false_r in H. apply orb_true_iff in H as [H|H].
  - apply Ascii.eqb_eq in H. subst y. rewrite Hy. split; [reflexivity|exact Hlt].
  - apply andb_true_iff in H as [Hx Hxy]. rewrite Hx.
    apply Nat.eqb_eq in Hxy. rewrite <- Hxy, ascii_nat_embedding.
    split; [reflexivity|]. unfold isUpper in Hx.
    apply andb_true_iff in Hx as [_ Hx]. apply Nat.leb_le in Hx. lia.
Qed.

Lemma sameUpToCase_lower (s e : string) :
  sameUpToCase s e = true ->
  forallb lowerASCII (list_ascii_of_string e) = true ->
  isASCII s = true /\
  string_of_list_ascii (map lowerByte (list_ascii_of_string s)) = e.
Proof.
  revert e. induction s as [|x s IH]; intros [|y e]; simpl; try discriminate.
  - intros _ _. split; reflexivity.
  - intros H He. apply andb_true_iff in H as [Hxy Hse].
    apply andb_true_iff in He as [Hy He].
    unfold lowerASCII in Hy. apply andb_true_iff in Hy as [Hup Hlt].
    apply negb_true_iff in Hup. apply Nat.ltb_lt in Hlt.
    destruct (sameLetter_lower x y Hxy Hup Hlt) as [-> Hx].
    destruct (IH e Hse He) as [Hascii ->].
    unfold isASCII in *. simpl. rewrite Hascii.
    split; [|reflexivity].
    apply andb_true_iff. split; [apply Nat.ltb_lt; exact Hx|reflexivity].
Qed.

Lemma SupportedExtensions_lower :
  Forall (fun e => forallb lowerASCII (list_ascii_of_string e) = true)
         SupportedExtensions.
Proof. repeat constructor. Qed.

Lemma SupportedExtensions_classes :
  SupportedExtensions = staticExts ++ gifExts ++ videoExts.
Proof. reflexivity. Qed.

Lemma ToLower_sameUpToCase (rt : Runtime) (s e : string) :
  e ∈ SupportedExtensions -> sameUpToCase s e = true -> ToLower rt s = e.
Proof.
  intros Hin Hse.
  pose proof SupportedExtensions_lower as Hlow.
  rewrite Forall_forall in Hlow.
  destruct (sameUpToCase_lower s e Hse (Hlow e Hin)) as [Hascii Heq].
  unfold ToLower. rewrite Hascii. exact Heq.
Qed.

(** The three classes of extensions do not overlap, so the order of the
    cases of the [switch] does not matter. *)
Lemma classes_disjoint (ext : string) :
  (ext ∈ gifExts -> ext ∉ staticExts) /\
  (ext ∈ videoExts -> (ext ∉ staticExts) /\ (ext ∉ gifExts)).
Proof.
  split.
  - intros Hg Hs. apply list_elem_of_In in Hg, Hs. simpl in Hg, Hs.
    intuition congruence.
  - intros Hv. split; intros Hs; apply list_elem_of_In in Hv, Hs; simpl in Hv, Hs;
      intuition congruence.
Qed.

Lemma newVideoSource_error_kind (h : Host) (path : string) (frameRate : Z)
    (e : error) :
  newVideoSource h path frameRate = Err e -> kindOf e <> FileOpenFailure.
Proof.
  unfold newVideoSource, spawn.
  destruct (ffmpegPath h); [|intros [= <-]; discriminate].
  destruct (pipeFault h); [intros [= <-]; discriminate|].
  destruct (startFault h); [intros [= <-]; discriminate|].
  discriminate.
Qed.

(** C5, as stated, fails for the video class: a path that does not exist
    and ends in [.mp4] does not make [Open] fail with [FileOpenFailure].
    On a host with FFmpeg installed the decoder is started and [Open]
    returns a video source. *)
Lemma Open_missing_video_not_FileOpenFailure :
  ~ (forall (rt : Runtime) (h : Host) (path : string) (frameRate : Z),
        files h !! path = None ->
        ToLower rt (Ext rt path) ∈ SupportedExtensions ->
        failsWith (Open rt h path frameRate) FileOpenFailure).
Proof.
  intros H.
  destruct (H toyRuntime studio "/nonexistent/path/clip.mp4" 30) as (e & He & _).
  - vm_compute. reflexivity.
  - apply list_elem_of_In. vm_compute. auto 20.
  - vm_compute in He. discriminate He.
Qed.

(** C5, amended: [Open] matches the extension without regard to the case
    of its letters and hands the path to the constructor of the
    extension's class; for an extension outside the supported set it fails
    with [UnsupportedFormat], naming the extension and listing the
    supported set, whatever the host holds, and constructs nothing; for a
    path that does not exist it fails with [FileOpenFailure] when the
    extension is of the static image class or the GIF class.  For the
    video class the constructor does not open the file: the result is that
    of locating and starting the decoder, which is never
    [FileOpenFailure]. *)
Theorem Open_dispatch (rt : Runtime) (h : Host) (path : string) (frameRate : Z) :
  let ext := ToLower rt (Ext rt path) in
  (forall e, e ∈ SupportedExtensions ->
             sameUpToCase (Ext rt path) e = true -> ext = e) /\
  (ext ∈ staticExts ->
     Open rt h path frameRate = mapResult ImageSource (newImageSource rt h path)) /\
  (ext ∈ gifExts ->
     Open rt h path frameRate = mapResult GifSource (newGIFSource rt h path frameRate)) /\
  (ext ∈ videoExts ->
     Open rt h path frameRate = mapResult VideoSource (newVideoSource h path frameRate) /\
     ~ failsWith (Open rt h path frameRate) FileOpenFailure) /\
  (ext ∉ SupportedExtensions ->
     Open rt h path frameRate = Err (Unsupported ext (Join SupportedExtensions ", ")) /\
     failsWith (Open rt h path frameRate) UnsupportedFormat) /\
  (files h !! path = None ->
     (ext ∈ staticExts ->
        Open rt h path frameRate = Err (Wrap (OpeningImage path) ErrNotExist) /\
        failsWith (Open rt h path frameRate) FileOpenFailure) /\
     (ext ∈ gifExts ->
        Open rt h path frameRate = Err (Wrap (OpeningGIF path) ErrNotExist) /\
        failsWith (Open rt h path frameRate) FileOpenFailure)).
Proof.
  intros ext.
  destruct (classes_disjoint ext) as [Hgif Hvideo].
  assert (HS : ext ∈ staticExts ->
               Open rt h path frameRate = mapResult ImageSource (newImageSource rt h path)).
  { intros Hs. unfold Open. fold ext. rewrite (bool_decide_eq_true_2 _ Hs). reflexivity. }
  assert (HG : ext ∈ gifExts ->
               Open rt h path frameRate =
                 mapResult GifSource (newGIFSource rt h path frameRate)).
  { intros Hg. unfold Open. fold ext.
    rewrite (bool_decide_eq_false_2 _ (Hgif Hg)), (bool_decide_eq_true_2 _ Hg).
    reflexivity. }
  assert (HV : ext ∈ videoExts ->
               Open rt h path frameRate =
                 mapResult VideoSource (newVideoSource h path frameRate)).
  { intros Hv. destruct (Hvideo Hv) as [Hns Hng]. unfold Open. fold ext.
    rewrite (bool_decide_eq_false_2 _ Hns), (bool_decide_eq_false_2 _ Hng),
            (bool_decide_eq_true_2 _ Hv).
    reflexivity. }
  split; [|split; [exact HS|split; [exact HG|split; [|split]]]].
  - intros e Hin Hse. apply ToLower_sameUpToCase; assumption.
  - intros Hv. split; [exact (HV Hv)|]. rewrite (HV Hv). intros (e & He & Hk).
    destruct (newVideoSource h path frameRate) as [s|e'|] eqn:Hnew;
      simpl in He; try discriminate.
    injection He as <-. eapply newVideoSource_error_kind; eassumption.
  - intros Hnot. rewrite SupportedExtensions_classes in Hnot.
    rewrite !elem_of_app in Hnot.
    assert (HO : Open rt h path frameRate =
                 Err (Unsupported ext (Join SupportedExtensions ", "))).
    { unfold Open. fold ext. repeat case_bool_decide; tauto. }
    split; [exact HO|]. rewrite HO. eexists. split; reflexivity.
  - intros Hmiss.
    assert (Hopen : osOpen h path = Err ErrNotExist).
    { unfold osOpen. rewrite Hmiss. reflexivity. }
    split.
    + intros Hs.
      assert (HO : Open rt h path frameRate = Err (Wrap (OpeningImage path) ErrNotExist)).
      { rewrite (HS Hs). unfold newImageSource. rewrite Hopen. reflexivity. }
      split; [exact HO|]. rewrite HO. eexists. split; reflexivity.
    + intros Hg.
      assert (HO : Open rt h path frameRate = Err (Wrap (OpeningGIF path) ErrNotExist)).
      { rewrite (HG Hg). unfold newGIFSource. rewrite Hopen. reflexivity. }
      split; [exact HO|]. rewrite HO. eexists. split; reflexivity.
Qed.

Lemma Open_dispatch_witness :
  Open toyRuntime studio "/nonexistent/path/image.JPG" 30 =
    Err (Wrap (OpeningImage "/nonexistent/path/image.JPG") ErrNotExist).
Proof.
  destruct (Open_dispatch toyRuntime studio "/nonexistent/path/image.JPG" 30)
    as (_ & _ & _ & _ & _ & Hmissing).
  destruct Hmissing as (Hstatic & _).
  - vm_compute. reflexivity.
  - destruct Hstatic as [HO _].
    + apply list_elem_of_In. vm_compute. auto 20.
    + exact HO.
Defined.

End MediaFacts.

(** ** Video source *)

Module VideoFacts.

Import Video Samples.

(** A read that reports no error delivers at least one byte and takes
    exactly the delivered bytes out of the pipe. *)
Lemma readChunks_consumes (n : nat) (chunks rest : list (list byte))
    (out : list byte) :
  (1 <= n)%nat ->
  readChunks n chunks = (rest, (out, None)) ->
  (1 <= length out)%nat /\
  length (concat chunks) = (length out + length (concat rest))%nat.
Proof.
  intros Hn. induction chunks as [|c chunks IH]; simpl.
  - discriminate.
  - destruct c as [|b c].
    + intros H. apply IH in H. simpl. exact H.
    + intros [= <- <-].
      assert (Hsplit : length (b :: c) =
                (length (take n (b :: c)) + length (drop n (b :: c)))%nat).
      { rewrite <- length_app, take_drop. reflexivity. }
      split.
      * destruct n as [|n]; [lia|]. simpl. lia.
      * rewrite length_app, Hsplit.
        destruct (drop n (b :: c)) as [|b' c'] eqn:Hd.
        -- simpl. lia.
        -- simpl. rewrite length_app. simpl. lia.
Qed.

Lemma Read_consumes (n : nat) (p p' : Pipe) (out : list byte) :
  (1 <= n)%nat ->
  Read n p = (p', (out, None)) ->
  (1 <= length out)%nat /\ pendingBytes p = (length out + pendingBytes p')%nat.
Proof.
  intros Hn. unfold Read, pendingBytes.
  destruct (closed p); [discriminate|].
  destruct (readChunks n (pending p)) as [rest o] eqn:E.
  intros [= <- ->]. simpl.
  eapply readChunks_consumes; eassumption.
Qed.

Lemma readByte_consumes (p p' : Pipe) (b : byte) :
  readByte p = (p', (b, None)) -> (pendingBytes p' < pendingBytes p)%nat.
Proof.
  unfold readByte.
  destruct (Read 1 p) as [q [bs err]] eqn:E.
  destruct bs as [|b0 bs].
  - intros [= <- <- ->]. unfold Read in E.
    destruct (closed p); [discriminate|].
    destruct (readChunks 1 (pending p)) as [rest o] eqn:E'.
    injection E as <- ->.
    exfalso. clear -E'. induction (pending p) as [|c cs IH]; simpl in E'.
    + discriminate.
    + destruct c as [|x c]; [auto|]. discriminate.
  - intros [= <- <-].
    unfold Read in E. destruct (closed p); [discriminate|].
    destruct (readChunks 1 (pending p)) as [rest o] eqn:E'.
    injection E as <- ->. unfold pendingBytes. simpl.
    assert (Herr : err = None).
    { clear -E'. induction (pending p) as [|c cs IH]; simpl in E'.
      - discriminate.
      - destruct c as [|x c]; [auto|]. congruence. }
    subst err.
    apply readChunks_consumes in E' as [Hlen Hsum]; [|lia]. simpl in *. lia.
Qed.

(** The loops of [NextFrame] end within the bound they are given. *)
Lemma readBody_total (fuel : nat) (p : Pipe) (frame : list byte) :
  (pendingBytes p < fuel)%nat -> is_Some (readBody fuel p frame).
Proof.
  revert p frame. induction fuel as [|fuel IH]; intros p frame Hfuel; [lia|].
  simpl. destruct (Read 4096 p) as [p' [chunk err]] eqn:E.
  destruct (if (0 <? length chunk)%nat then _ else None) as [idx|]; [eexists; reflexivity|].
  destruct err as [e|]; [eexists; reflexivity|].
  apply Read_consumes in E as [Hlen Hsum]; [|lia].
  apply IH. lia.
Qed.

Lemma scanSOI_total (fuel : nat) (p : Pipe) :
  (pendingBytes p < fuel)%nat -> is_Some (scanSOI fuel p).
Proof.
  revert p. induction fuel as [|fuel IH]; intros p Hfuel; [lia|].
  cbn [scanSOI]. destruct (readByte p) as [p1 [b err]] eqn:E1.
  destruct err as [e|]; [eexists; reflexivity|].
  apply readByte_consumes in E1.
  destruct (negb (Byte.eqb b xff)); [apply IH; lia|].
  destruct (readByte p1) as [p2 [b2 err2]] eqn:E2.
  destruct err2 as [e|]; [eexists; reflexivity|].
  apply readByte_consumes in E2.
  destruct (negb (Byte.eqb b2 xd8)); [apply IH; lia|].
  apply readBody_total. lia.
Qed.

(** [NextFrame] on a source with an output pipe always returns, with a
    frame or an error: the bound it gives its loops is never reached. *)
Lemma NextFrame_total (s : videoSource) (p : Pipe) :
  stdout s = Some p ->
  exists p' r, scanSOI (S (pendingBytes p)) p = Some (p', r) /\
               NextFrame s = (set_stdout s (Some p'), r) /\ r <> Panic.
Proof.
  intros Hp. destruct (scanSOI_total (S (pendingBytes p)) p) as [[p' r] Hr]; [lia|].
  exists p', r. split; [exact Hr|]. unfold NextFrame. rewrite Hp, Hr.
  split; [reflexivity|].
  clear Hp. revert Hr. generalize (S (pendingBytes p)) as fuel. intros fuel.
  revert p. induction fuel as [|fuel IH]; intros p; cbn [scanSOI]; [discriminate|].
  destruct (readByte p) as [p1 [b err]].
  destruct err as [e|]; [intros [= <- <-]; discriminate|].
  assert (Hbody : forall f q fr, readBody f q fr = Some (p', r) -> r <> Panic).
  { clear. intros f. induction f as [|f IHf]; intros q fr; simpl; [discriminate|].
    destruct (Read 4096 q) as [q' [chunk err]].
    destruct (if (0 <? length chunk)%nat then _ else None) as [idx|];
      [intros [= <- <-]; discriminate|].
    destruct err as [e|]; [intros [= <- <-]; discriminate|]. apply IHf. }
  destruct (negb (Byte.eqb b xff)); [apply IH|].
  destruct (readByte p1) as [p2 [b2 err2]].
  destruct err2 as [e|]; [intros [= <- <-]; discriminate|].
  destruct (negb (Byte.eqb b2 xd8)); [apply IH|].
  apply Hbody.
Qed.

(** Two frames that arrive in two reads are returned one per call. *)
Example NextFrame_one_frame_per_read :
  (NextFrames 2 (videoReading [jpegA; jpegB] Running)).2 = [Ok jpegA; Ok jpegB].
Proof. vm_compute. reflexivity. Qed.

(** C2 fails on the code: when one read delivers the end of a frame
    together with bytes of the next frame, [NextFrame] returns the first
    frame and drops the bytes read past its EOI marker.  With [jpegA] and
    [jpegB] delivered back to back by one read, the first call returns
    [jpegA] and the second call finds the stream at its end. *)
Theorem video_NextFrame_drops_lookahead :
  NextFrames 2 (videoReading [jpegA ++ jpegB] Running) =
    (videoReading [] Running,
     [Ok jpegA; Err (Wrap ReadingFromFfmpeg EOF)]).
Proof. vm_compute. reflexivity. Qed.

(** The same loss when the reads split the stream inside the markers. *)
Example NextFrame_split_in_markers :
  (NextFrames 2 (videoReading
     [[xff]; [xd8; x01; xff]; [xd9; xff]; [xd8; x02; xff; xd9]] Running)).2 =
    [Ok jpegA; Err (Wrap ReadingFromFfmpeg EOF)].
Proof. vm_compute. reflexivity. Qed.

(** C4, as stated, fails: [Close] on a source whose decoder has already
    exited does not always report success.  Where the operating system
    answers the kill of an exited process with an error, [Close] returns
    that error. *)
Lemma video_Close_exited_can_fail :
  ~ (forall (killExited : option error) (s : videoSource) (c : Cmd) (pr : Process),
        cmd s = Some c -> proc c = Some pr -> state pr = Exited ->
        (Close killExited s).2 = None).
Proof.
  intros H.
  specialize (H (Some ErrProcessDone) (videoReading [] Exited)
                {| proc := Some {| pid := 4242; state := Exited |} |}
                {| pid := 4242; state := Exited |}
                eq_refl eq_refl eq_refl).
  vm_compute in H. discriminate H.
Qed.

(** C4, amended: [Close] closes the output pipe and returns the result of
    killing the decoder unchanged.  It reports success when it kills a
    running decoder and when no process was started.  When the decoder has
    already exited, on its own or through an earlier [Close], it returns
    what the operating system reports for killing an exited process:
    success where the system accepts that kill, the system's error
    otherwise.  A second [Close] returns that same report and leaves the
    source as the first [Close] left it. *)
Theorem video_Close_reports_kill (killExited : option error) (s : videoSource) :
  (Close killExited s).2 =
    match cmd s with
    | Some {| proc := Some pr |} =>
        match state pr with Running => None | Exited => killExited end
    | _ => None
    end /\
  (Close killExited (Close killExited s).1).2 =
    match cmd s with
    | Some {| proc := Some pr |} => killExited
    | _ => None
    end /\
  stdout (Close killExited s).1 = closePipe <$> stdout s /\
  (Close killExited (Close killExited s).1).1 = (Close killExited s).1.
Proof.
  unfold Close.
  destruct s as [pa fr [[[[pi st]|]]|] [p|] bf]; simpl;
    try destruct st; simpl; repeat split; reflexivity.
Qed.

End VideoFacts.

(** ** Server lifecycle *)

Module ServerFacts.

Import Media Server Samples.

(** C9: when [Config.FrameRate] is zero, [New] opens the media source with
    a frame rate of 30 and keeps 30 in the configuration of the session,
    so the tick interval of the streaming loop is computed from 30, and a
    GIF source of the session was built with 30 as the rate behind its
    zero-delay fallback: each of its frames has its authored delay or,
    when that is zero, the duration computed from 30. *)
Theorem New_defaults_frame_rate (rt : Runtime) (h : Host) (c : Config) :
  FrameRate c = 0 ->
  New rt h c =
    match Open rt h (FilePath c) 30 with
    | Panic => Panic
    | Err e => Err (Wrap OpeningMedia e)
    | Ok src =>
        Ok {| cfg := {| FilePath := FilePath c; Port := Port c; FrameRate := 30 |};
              source := src; httpSrv := None; started := false; cancel := false |}
    end /\
  forall s, New rt h c = Ok s ->
    FrameRate (cfg s) = 30 /\
    tickInterval rt s = durationOfQuotient rt Second 30 /\
    forall g, source s = GifSource g ->
      newGIFSource rt h (FilePath c) 30 = Ok g /\
      Forall (fun fr =>
                exists d, Gif.delay fr =
                  if delayOfCentiseconds d =? 0
                  then durationOfQuotient rt Second 30
                  else delayOfCentiseconds d)
             (Gif.frames g).
Proof.
  intros Hzero.
  assert (HN : New rt h c =
    match Open rt h (FilePath c) 30 with
    | Panic => Panic
    | Err e => Err (Wrap OpeningMedia e)
    | Ok src =>
        Ok {| cfg := {| FilePath := FilePath c; Port := Port c; FrameRate := 30 |};
              source := src; httpSrv := None; started := false; cancel := false |}
    end).
  { unfold New. rewrite Hzero. reflexivity. }
  split; [exact HN|]. intros s Hs. rewrite HN in Hs.
  destruct (Open rt h (FilePath c) 30) as [src|e|] eqn:Hopen; try discriminate.
  injection Hs as <-. unfold tickInterval. simpl.
  split; [reflexivity|]. split; [reflexivity|].
  intros g ->.
  pose proof (MediaFacts.Open_Ok_inv rt h (FilePath c) 30 (GifSource g) Hopen) as Hg.
  simpl in Hg. split; [exact Hg|].
  apply (MediaFacts.newGIFSource_delays rt h (FilePath c) 30 g Hg).
Qed.

Lemma New_defaults_frame_rate_witness :
  exists s,
    New toyRuntime studio {| FilePath := "/media/loop.gif"; Port := 8080; FrameRate := 0 |}
      = Ok s /\
    tickInterval toyRuntime s = 33333333.
Proof.
  destruct (New_defaults_frame_rate toyRuntime studio
              {| FilePath := "/media/loop.gif"; Port := 8080; FrameRate := 0 |}
              eq_refl) as [HN Hs].
  eexists. split.
  - vm_compute. reflexivity.
  - apply (Hs _ ltac:(vm_compute; reflexivity)).
Defined.

(** C6: [Start] on a running session fails with [AlreadyRunning], changes
    nothing in the session and calls nothing; [Stop] on a session that is
    not running returns success, changes nothing in the session and calls
    nothing: no cancellation, no close of the source, no shutdown of the
    listener. *)
Theorem lifecycle_guards (env : Env) (s : Server) :
  (started s = true ->
     Start env s = (s, Err ServerAlreadyRunning, []) /\
     failsWith (Start env s).1.2 AlreadyRunning) /\
  (started s = false -> Stop env s = (s, Ok tt, [])).
Proof.
  split; intros Hs.
  - unfold Start. rewrite Hs. split; [reflexivity|].
    eexists. split; reflexivity.
  - unfold Stop. rewrite Hs. reflexivity.
Qed.

Lemma lifecycle_guards_witness :
  Start strictEnv liveSession = (liveSession, Err ServerAlreadyRunning, []) /\
  Stop strictEnv idleSession = (idleSession, Ok tt, []).
Proof.
  split.
  - apply (lifecycle_guards strictEnv liveSession). reflexivity.
  - apply (lifecycle_guards strictEnv idleSession). reflexivity.
Defined.

Lemma CloseSource_logged (evs : list Event) (rest : list Event) :
  CloseSource ∈ evs ++ CloseSource :: rest.
Proof. apply elem_of_app. right. apply elem_of_cons. left. reflexivity. Qed.

Lemma ShutdownListener_not_logged (c : bool) :
  ShutdownListener ∉ (if c then [CancelContext] else []) ++ [CloseSource].
Proof.
  intros H. apply list_elem_of_In in H.
  destruct c; simpl in H; intuition discriminate.
Qed.

(** What [Stop] does on a running session, by cases on the result of
    closing the source. *)
Lemma Stop_running (env : Env) (s : Server) :
  started s = true ->
  started (Stop env s).1.1 = false /\
  CloseSource ∈ (Stop env s).2 /\
  match (Media.Close (killExited env) (source s)).2 with
  | Some e =>
      (Stop env s).1.2 = Err (Wrap ClosingMediaSource e) /\
      (ShutdownListener ∉ (Stop env s).2)
  | None =>
      is_Some (httpSrv s) ->
      ShutdownListener ∈ (Stop env s).2 /\
      (Stop env s).1.2 =
        match shutdownFault env with Some e => Err e | None => Ok tt end
  end.
Proof.
  intros Hs. unfold Stop. rewrite Hs. simpl.
  destruct (Media.Close (killExited env) (source s)) as [src' closeErr]. simpl.
  destruct closeErr as [e|].
  - simpl. split; [reflexivity|]. split; [apply CloseSource_logged|].
    split; [reflexivity|apply ShutdownListener_not_logged].
  - destruct (httpSrv s) as [srv|]; simpl.
    + split; [reflexivity|]. split; [apply CloseSource_logged|]. intros _.
      split; [|reflexivity].
      apply elem_of_app. right. apply elem_of_cons. right.
      apply elem_of_cons. left. reflexivity.
    + split; [reflexivity|]. split; [apply CloseSource_logged|].
      intros [x Hx]. discriminate.
Qed.

(** C3 fails on the code: when closing the source of a running session
    fails, [Stop] returns that failure at once and never calls the
    shutdown of the listener.  The session is marked not running and the
    failure is reported, but the listener is left serving. *)
Theorem Stop_close_failure_skips_shutdown (env : Env) (s : Server) (e : error) :
  started s = true ->
  (Media.Close (killExited env) (source s)).2 = Some e ->
  (Stop env s).1.2 = Err (Wrap ClosingMediaSource e) /\
  (ShutdownListener ∉ (Stop env s).2) /\
  started (Stop env s).1.1 = false.
Proof.
  intros Hs Hclose.
  destruct (Stop_running env s Hs) as (Hstopped & _ & Hcases).
  rewrite Hclose in Hcases. destruct Hcases as [Herr Hskip].
  split; [exact Herr|]. split; [exact Hskip|exact Hstopped].
Qed.

Lemma Stop_close_failure_skips_shutdown_witness :
  (Stop strictEnv liveSession).1.2 = Err (Wrap ClosingMediaSource ErrProcessDone) /\
  (Stop strictEnv liveSession).2 = [CancelContext; CloseSource].
Proof.
  split.
  - apply (Stop_close_failure_skips_shutdown strictEnv liveSession ErrProcessDone);
      reflexivity.
  - reflexivity.
Defined.

End ServerFacts.

(** ** The frame extractor of the video source *)

Module DemuxFacts.

Import Video Demux.

Lemma eqb_byte_true (x y : byte) : Byte.eqb x y = true <-> x = y.
Proof. split; [apply Byte.byte_dec_bl|apply Byte.byte_dec_lb]. Qed.

Lemma eqb_byte_false (x y : byte) : Byte.eqb x y = false <-> x <> y.
Proof.
  split; [apply Byte.eqb_false|].
  intros Hne. destruct (Byte.eqb x y) eqn:E; [|reflexivity].
  apply eqb_byte_true in E. contradiction.
Qed.

Lemma Index2_cons (x y : byte) (tl : list byte) (b1 b2 : byte) :
  Index2 (x :: y :: tl) b1 b2 =
    if Byte.eqb x b1 && Byte.eqb y b2 then Some O
    else S <$> Index2 (y :: tl) b1 b2.
Proof. reflexivity. Qed.

(** [Index2] finds an occurrence, and the first one. *)
Lemma Index2_Some (s : list byte) (b1 b2 : byte) (i : nat) :
  Index2 s b1 b2 = Some i ->
  s !! i = Some b1 /\ s !! S i = Some b2 /\
  forall j, (j < i)%nat -> ~ (s !! j = Some b1 /\ s !! S j = Some b2).
Proof.
  revert i. induction s as [|x s IH]; intros i; [discriminate|].
  destruct s as [|y tl]; [discriminate|].
  rewrite Index2_cons.
  destruct (Byte.eqb x b1 && Byte.eqb y b2) eqn:E.
  - intros [= <-]. apply andb_true_iff in E as [E1 E2].
    apply eqb_byte_true in E1, E2. subst. repeat split; try reflexivity.
    intros j Hj. lia.
  - destruct (Index2 (y :: tl) b1 b2) as [k|] eqn:Ek; simpl; [|discriminate].
    intros [= <-]. destruct (IH k eq_refl) as (H1 & H2 & Hmin).
    repeat split; try assumption.
    intros [|j] Hj [Hj1 Hj2].
    + simpl in Hj1, Hj2. injection Hj1 as ->. injection Hj2 as ->.
      rewrite !(proj2 (eqb_byte_true _ _) eq_refl) in E. discriminate.
    + apply (Hmin j); [lia|]. split; assumption.
Qed.

Lemma Index2_None (s : list byte) (b1 b2 : byte) :
  Index2 s b1 b2 = None ->
  forall j, ~ (s !! j = Some b1 /\ s !! S j = Some b2).
Proof.
  induction s as [|x s IH]; [intros _ j [H _]; discriminate|].
  destruct s as [|y tl]; [intros _ [|j] [_ H]; discriminate|].
  rewrite Index2_cons.
  destruct (Byte.eqb x b1 && Byte.eqb y b2) eqn:E; [discriminate|].
  destruct (Index2 (y :: tl) b1 b2) as [k|] eqn:Ek; simpl; [discriminate|].
  intros _ [|j] [Hj1 Hj2].
  - simpl in Hj1, Hj2. injection Hj1 as ->. injection Hj2 as ->.
    rewrite !(proj2 (eqb_byte_true _ _) eq_refl) in E. discriminate.
  - apply (IH eq_refl j). split; assumption.
Qed.

Lemma Index2_bound (s : list byte) (b1 b2 : byte) (i : nat) :
  Index2 s b1 b2 = Some i -> (i + 2 <= length s)%nat.
Proof.
  intros H. apply Index2_Some in H as (_ & H2 & _).
  apply lookup_lt_Some in H2. lia.
Qed.

(** The first occurrence is determined by the two properties above. *)
Lemma Index2_unique (s : list byte) (b1 b2 : byte) (i : nat) :
  s !! i = Some b1 -> s !! S i = Some b2 ->
  (forall j, (j < i)%nat -> ~ (s !! j = Some b1 /\ s !! S j = Some b2)) ->
  Index2 s b1 b2 = Some i.
Proof.
  intros H1 H2 Hmin.
  destruct (Index2 s b1 b2) as [k|] eqn:Ek.
  - destruct (Index2_Some s b1 b2 k Ek) as (K1 & K2 & Kmin).
    destruct (Nat.lt_trichotomy k i) as [Hlt|[->|Hgt]]; [|reflexivity|].
    + exfalso. apply (Hmin k Hlt). split; assumption.
    + exfalso. apply (Kmin i Hgt). split; assumption.
  - exfalso. apply (Index2_None s b1 b2 Ek i). split; assumption.
Qed.

(** A proper prefix of a string whose first occurrence is its end has no
    occurrence. *)
Lemma Index2_prefix_None (a b : list byte) (b1 b2 : byte) :
  Index2 (a ++ b) b1 b2 = Some (length (a ++ b) - 2)%nat -> b <> [] ->
  Index2 a b1 b2 = None.
Proof.
  intros H Hb.
  destruct (Index2 a b1 b2) as [k|] eqn:Ek; [|reflexivity].
  exfalso.
  pose proof (Index2_bound _ _ _ _ H) as Hlen.
  destruct (Index2_Some _ _ _ _ Ek) as (K1 & K2 & _).
  destruct (Index2_Some _ _ _ _ H) as (_ & _ & Hmin).
  pose proof (lookup_lt_Some _ _ _ K2) as Hk.
  apply (Hmin k).
  - rewrite length_app in *. destruct b; [contradiction|]. simpl in *. lia.
  - split; rewrite lookup_app_l; try assumption; lia.
Qed.

Lemma Index2_take_end (s : list byte) (b1 b2 : byte) (i : nat) :
  Index2 s b1 b2 = Some i ->
  Index2 (take (i + 2) s) b1 b2 = Some (length (take (i + 2) s) - 2)%nat.
Proof.
  intros H. pose proof (Index2_bound _ _ _ _ H) as Hlen.
  destruct (Index2_Some _ _ _ _ H) as (H1 & H2 & Hmin).
  rewrite length_take, Nat.min_l by lia.
  replace (i + 2 - 2)%nat with i by lia.
  apply Index2_unique.
  - rewrite lookup_take_lt by lia. exact H1.
  - rewrite lookup_take_lt by lia. exact H2.
  - intros j Hj [J1 J2]. apply (Hmin j Hj).
    rewrite lookup_take_lt in J1 by lia. rewrite lookup_take_lt in J2 by lia.
    split; assumption.
Qed.

(** *** What a read takes out of the pipe *)

Lemma readChunks_spec (n : nat) (chunks rest : list (list byte))
    (out : list byte) (err : option error) :
  (1 <= n)%nat ->
  readChunks n chunks = (rest, (out, err)) ->
  concat chunks = out ++ concat rest /\
  (length out <= n)%nat /\
  (err = None -> out <> []) /\
  (err <> None -> out = [] /\ rest = [] /\ err = Some EOF).
Proof.
  intros Hn. induction chunks as [|c chunks IH]; simpl.
  - intros [= <- <- <-]. split; [reflexivity|]. split; [simpl; lia|].
    split; [discriminate|]. intros _. split; [reflexivity|]. split; reflexivity.
  - destruct c as [|b c].
    + intros H. apply IH in H. simpl. exact H.
    + intros [= <- <- <-]. split; [|split; [|split]].
      * rewrite <- (take_drop n (b :: c)) at 1.
        destruct (drop n (b :: c)); simpl; rewrite ?app_nil_r, <- ?app_assoc; reflexivity.
      * rewrite length_take. lia.
      * intros _. destruct n; [lia|]. discriminate.
      * intros H. contradiction.
Qed.

Lemma Read_open (n : nat) (p p' : Pipe) (out : list byte) (err : option error) :
  (1 <= n)%nat ->
  closed p = false ->
  Read n p = (p', (out, err)) ->
  closed p' = false /\
  concat (pending p) = out ++ concat (pending p') /\
  (length out <= n)%nat /\
  (err = None -> out <> []) /\
  (err <> None -> out = [] /\ pending p' = [] /\ err = Some EOF).
Proof.
  intros Hn Hc. unfold Read. rewrite Hc.
  destruct (readChunks n (pending p)) as [rest o] eqn:E.
  intros [= <- ->]. simpl. split; [reflexivity|].
  eapply readChunks_spec; eassumption.
Qed.

Lemma Read_closed (n : nat) (p : Pipe) :
  closed p = true -> Read n p = (p, ([], Some ErrFileClosed)).
Proof. intros Hc. unfold Read. rewrite Hc. reflexivity. Qed.

Lemma readByte_None (p p' : Pipe) (b : byte) :
  readByte p = (p', (b, None)) ->
  closed p = false /\ closed p' = false /\
  concat (pending p) = b :: concat (pending p').
Proof.
  unfold readByte. destruct (closed p) eqn:Hc.
  - rewrite (Read_closed 1 p Hc). discriminate.
  - destruct (Read 1 p) as [q [bs err]] eqn:E.
    destruct (Read_open 1 p q bs err (Nat.le_refl 1) Hc E)
      as (Hq & Hcat & Hlen & Hne & Herr).
    destruct bs as [|b0 bs].
    + intros [= <- <- ->]. exfalso. apply Hne; reflexivity.
    + intros [= <- <-]. destruct bs; [|simpl in Hlen; lia].
      split; [reflexivity|]. split; assumption.
Qed.

Lemma readByte_Some (p p' : Pipe) (b : byte) (e : error) :
  readByte p = (p', (b, Some e)) ->
  (closed p = true /\ p' = p /\ e = ErrFileClosed) \/
  (closed p = false /\ closed p' = false /\ pending p' = [] /\ e = EOF).
Proof.
  unfold readByte. destruct (closed p) eqn:Hc.
  - rewrite (Read_closed 1 p Hc). intros [= <- _ <-]. left.
    split; [reflexivity|]. split; reflexivity.
  - destruct (Read 1 p) as [q [bs err]] eqn:E.
    destruct (Read_open 1 p q bs err (Nat.le_refl 1) Hc E)
      as (Hq & Hcat & Hlen & Hne & Herr).
    destruct bs as [|b0 bs]; [|discriminate].
    intros [= <- _ ->]. right.
    destruct Herr as (_ & Hp & He); [discriminate|].
    injection He as ->. split; [reflexivity|]. split; [assumption|].
    split; [assumption|reflexivity].
Qed.

(** *** What a successful call returns *)

Lemma readBody_Ok (fuel : nat) (p p' : Pipe) (frame f : list byte) :
  readBody fuel p frame = Some (p', Ok f) ->
  Index2 frame xff xd9 = None ->
  closed p = false /\ closed p' = false /\
  exists more dropped,
    f = frame ++ more /\
    frame ++ concat (pending p) = f ++ dropped ++ concat (pending p') /\
    Index2 f xff xd9 = Some (length f - 2)%nat /\
    (length dropped < 4096)%nat.
Proof.
  revert p frame. induction fuel as [|fuel IH]; intros p frame; [discriminate|].
  cbn [readBody]. destruct (closed p) eqn:Hc.
  { rewrite (Read_closed 4096 p Hc). simpl. discriminate. }
  destruct (Read 4096 p) as [p1 [chunk err]] eqn:E.
  destruct (Read_open 4096 p p1 chunk err ltac:(lia) Hc E)
    as (Hc1 & Hcat & Hlen & Hne & Herr).
  destruct chunk as [|c0 chunk].
  { simpl. destruct err as [e|]; [discriminate|].
    exfalso. apply Hne; reflexivity. }
  change (0 <? length (c0 :: chunk))%nat with true. cbv iota.
  set (frame' := frame ++ c0 :: chunk) in *.
  destruct (Index2 frame' xff xd9) as [idx|] eqn:Eidx.
  - intros [= <- <-] Hnone. split; [reflexivity|]. split; [exact Hc1|].
    pose proof (Index2_bound _ _ _ _ Eidx) as Hb.
    destruct (Index2_Some _ _ _ _ Eidx) as (I1 & I2 & _).
    assert (Hpast : (length frame < idx + 2)%nat).
    { destruct (Nat.lt_ge_cases (length frame) (idx + 2)) as [|Hin]; [assumption|].
      exfalso. apply (Index2_None _ _ _ Hnone idx).
      unfold frame' in I1, I2.
      rewrite lookup_app_l in I1 by lia. rewrite lookup_app_l in I2 by lia.
      split; assumption. }
    exists (take (idx + 2 - length frame) (c0 :: chunk)), (drop (idx + 2) frame').
    split; [|split; [|split]].
    + unfold frame'. rewrite take_app_ge by lia. reflexivity.
    + rewrite Hcat. unfold frame' at 1. rewrite app_assoc, (app_assoc (take _ _)).
      fold frame'. rewrite take_drop. reflexivity.
    + apply Index2_take_end. exact Eidx.
    + rewrite length_drop. unfold frame' in *. rewrite length_app in *.
      simpl in *. lia.
  - destruct err as [e|]; [discriminate|].
    intros Hrec Hnone. destruct (IH p1 frame' Hrec Eidx)
      as (_ & Hc' & more & dropped & Hf & Hcons & Hidx & Hdrop).
    split; [reflexivity|]. split; [exact Hc'|].
    exists ((c0 :: chunk) ++ more), dropped.
    split; [|split; [|split]]; try assumption.
    + rewrite Hf. unfold frame'. rewrite <- app_assoc. reflexivity.
    + rewrite Hcat, <- Hcons. unfold frame'. rewrite <- !app_assoc. reflexivity.
Qed.

Lemma scanSOI_Ok (fuel : nat) (p p' : Pipe) (f : list byte) :
  scanSOI fuel p = Some (p', Ok f) ->
  closed p = false /\ closed p' = false /\
  exists skipped dropped,
    concat (pending p) = skipped ++ f ++ dropped ++ concat (pending p') /\
    isJPEG f /\
    (length dropped < 4096)%nat.
Proof.
  revert p. induction fuel as [|fuel IH]; intros p; [discriminate|].
  cbn [scanSOI].
  destruct (readByte p) as [p1 [b [e|]]] eqn:E1; [discriminate|].
  destruct (readByte_None p p1 b E1) as (Hc & Hc1 & Hcat1).
  destruct (negb (Byte.eqb b xff)) eqn:Eb.
  { intros H. destruct (IH p1 H) as (_ & Hc' & skipped & dropped & Hcons & Hj & Hd).
    split; [exact Hc|]. split; [exact Hc'|].
    exists (b :: skipped), dropped. rewrite Hcat1, Hcons. auto. }
  apply negb_false_iff, eqb_byte_true in Eb. subst b.
  destruct (readByte p1) as [p2 [b2 [e|]]] eqn:E2; [discriminate|].
  destruct (readByte_None p1 p2 b2 E2) as (_ & Hc2 & Hcat2).
  destruct (negb (Byte.eqb b2 xd8)) eqn:Eb2.
  { intros H. destruct (IH p2 H) as (_ & Hc' & skipped & dropped & Hcons & Hj & Hd).
    split; [exact Hc|]. split; [exact Hc'|].
    exists (xff :: b2 :: skipped), dropped. rewrite Hcat1, Hcat2, Hcons. auto. }
  apply negb_false_iff, eqb_byte_true in Eb2. subst b2.
  intros H. destruct (readBody_Ok _ p2 p' [xff; xd8] f H eq_refl)
    as (_ & Hc' & more & dropped & Hf & Hcons & Hidx & Hd).
  split; [exact Hc|]. split; [exact Hc'|].
  exists [], dropped. split; [|split].
  - rewrite Hcat1, Hcat2. simpl. simpl in Hcons. exact Hcons.
  - split; [exists more; exact Hf|exact Hidx].
  - exact Hd.
Qed.

(** X1: Every frame that [NextFrame] returns is cut out of the stream in one
    piece: the bytes pending before the call are some skipped bytes, the
    frame, fewer than 4096 bytes that were read past its end and are
    dropped, and the bytes that stay pending.  The frame starts with the
    SOI marker, ends with the EOI marker and holds no other EOI marker. *)
Theorem NextFrame_returns_segment (s s' : videoSource) (p : Pipe) (f : list byte) :
  stdout s = Some p ->
  NextFrame s = (s', Ok f) ->
  exists p' skipped dropped,
    s' = set_stdout s (Some p') /\
    concat (pending p) = skipped ++ f ++ dropped ++ concat (pending p') /\
    isJPEG f /\
    (length dropped < 4096)%nat.
Proof.
  intros Hp. unfold NextFrame. rewrite Hp.
  destruct (scanSOI (S (pendingBytes p)) p) as [[p' r]|] eqn:E; [|discriminate].
  intros [= <- ->].
  destruct (scanSOI_Ok _ p p' f E) as (_ & _ & skipped & dropped & Hcons & Hj & Hd).
  exists p', skipped, dropped. auto.
Qed.

Lemma NextFrame_returns_segment_witness :
  exists p' skipped dropped,
    concat [Samples.jpegA ++ Samples.jpegB] =
      skipped ++ Samples.jpegA ++ dropped ++ concat (pending p') /\
    isJPEG Samples.jpegA.
Proof.
  destruct (NextFrame_returns_segment
              (Samples.videoReading [Samples.jpegA ++ Samples.jpegB] Running)
              (Samples.videoReading [] Running)
              {| pending := [Samples.jpegA ++ Samples.jpegB]; closed := false |}
              Samples.jpegA eq_refl ltac:(vm_compute; reflexivity))
    as (p' & skipped & dropped & _ & Hcons & Hj & _).
  exists p', skipped, dropped. split; assumption.
Defined.

(** *** What a failing call leaves behind *)

Lemma readBody_Err (fuel : nat) (p p' : Pipe) (frame : list byte) (e : error) :
  readBody fuel p frame = Some (p', Err e) ->
  closed p = false ->
  closed p' = false /\ pending p' = [] /\ e = Wrap ReadingFrameBody EOF.
Proof.
  revert p frame. induction fuel as [|fuel IH]; intros p frame; [discriminate|].
  cbn [readBody]. intros H Hc.
  destruct (Read 4096 p) as [p1 [chunk err]] eqn:E.
  destruct (Read_open 4096 p p1 chunk err ltac:(lia) Hc E)
    as (Hc1 & Hcat & Hlen & Hne & Herr).
  destruct (if (0 <? length chunk)%nat then _ else None) as [idx|]; [discriminate|].
  destruct err as [e0|].
  - injection H as <- <-.
    destruct Herr as (_ & Hp & He); [discriminate|]. injection He as ->.
    split; [assumption|]. split; [assumption|reflexivity].
  - apply (IH p1 _ H Hc1).
Qed.

Lemma scanSOI_Err (fuel : nat) (p p' : Pipe) (e : error) :
  scanSOI fuel p = Some (p', Err e) ->
  closed p = false ->
  closed p' = false /\ pending p' = [] /\
  (e = Wrap ReadingFromFfmpeg EOF \/ e = EOF \/ e = Wrap ReadingFrameBody EOF).
Proof.
  revert p. induction fuel as [|fuel IH]; intros p; [discriminate|].
  cbn [scanSOI]. intros H Hc.
  destruct (readByte p) as [p1 [b [e1|]]] eqn:E1.
  { injection H as <- <-.
    destruct (readByte_Some p p1 b e1 E1) as [(Hx & _)|(_ & Hc1 & Hp1 & ->)];
      [congruence|].
    split; [assumption|]. split; [assumption|]. left; reflexivity. }
  destruct (readByte_None p p1 b E1) as (_ & Hc1 & _).
  destruct (negb (Byte.eqb b xff)); [apply (IH p1 H Hc1)|].
  destruct (readByte p1) as [p2 [b2 [e2|]]] eqn:E2.
  { injection H as <- <-.
    destruct (readByte_Some p1 p2 b2 e2 E2) as [(Hx & _)|(_ & Hc2 & Hp2 & ->)];
      [congruence|].
    split; [assumption|]. split; [assumption|]. right; left; reflexivity. }
  destruct (readByte_None p1 p2 b2 E2) as (_ & Hc2 & _).
  destruct (negb (Byte.eqb b2 xd8)); [apply (IH p2 H Hc2)|].
  destruct (readBody_Err _ p2 p' _ e H Hc2) as (Hc' & Hp' & ->).
  split; [assumption|]. split; [assumption|]. right; right; reflexivity.
Qed.

Lemma NextFrame_drained (s : videoSource) (n : nat) :
  stdout s = Some {| pending := []; closed := false |} ->
  NextFrames n s = (s, replicate n (Err (Wrap ReadingFromFfmpeg EOF))).
Proof.
  intros Hs. induction n as [|n IH]; [reflexivity|].
  cbn [NextFrames]. unfold NextFrame at 1. rewrite Hs. simpl.
  assert (Hfix : set_stdout s (Some {| pending := []; closed := false |}) = s).
  { destruct s. simpl in Hs. subst. reflexivity. }
  rewrite Hfix, IH. reflexivity.
Qed.

(** X3: When [NextFrame] fails on a pipe that is open, the stream has ended:
    the error is the end-of-file error, wrapped as a failure of the marker
    scan or of the frame body, or bare when the stream ended between the
    two bytes of a marker; the pipe is left empty, whatever was read of an
    unfinished frame is gone, and every later call fails with the
    end-of-file error of the marker scan. *)
Theorem NextFrame_error_is_final (s s' : videoSource) (p : Pipe) (e : error) :
  stdout s = Some p -> closed p = false ->
  NextFrame s = (s', Err e) ->
  s' = set_stdout s (Some {| pending := []; closed := false |}) /\
  (e = Wrap ReadingFromFfmpeg EOF \/ e = EOF \/ e = Wrap ReadingFrameBody EOF) /\
  forall n, NextFrames n s' = (s', replicate n (Err (Wrap ReadingFromFfmpeg EOF))).
Proof.
  intros Hp Hc. unfold NextFrame. rewrite Hp.
  destruct (scanSOI (S (pendingBytes p)) p) as [[p' r]|] eqn:E; [|discriminate].
  intros [= <- ->].
  destruct (scanSOI_Err _ p p' e E Hc) as (Hc' & Hp' & He).
  assert (Hp'' : p' = {| pending := []; closed := false |}).
  { destruct p'. simpl in *. subst. reflexivity. }
  subst p'. split; [reflexivity|]. split; [exact He|].
  intros n. apply NextFrame_drained. reflexivity.
Qed.

Lemma NextFrame_error_is_final_witness :
  NextFrames 3 (Samples.videoReading [] Running) =
    (Samples.videoReading [] Running,
     replicate 3 (Err (Wrap ReadingFromFfmpeg EOF))).
Proof.
  apply (NextFrame_error_is_final
           (Samples.videoReading [[xff; xd8; x01]] Running)
           (Samples.videoReading [] Running)
           {| pending := [[xff; xd8; x01]]; closed := false |}
           (Wrap ReadingFrameBody EOF) eq_refl eq_refl).
  vm_compute. reflexivity.
Defined.




(** *** Reads that end where a frame ends *)

Lemma Read_head (n : nat) (c : list byte) (more : list (list byte)) :
  c <> [] ->
  Read n {| pending := c :: more; closed := false |} =
    ({| pending := match drop n c with [] => more | c' => c' :: more end;
        closed := false |},
     (take n c, None)).
Proof. intros Hc. destruct c; [contradiction|]. reflexivity. Qed.

Lemma concat_nonempty (cs : list (list byte)) :
  Forall (fun c => c <> []) cs -> cs <> [] -> concat cs <> [].
Proof.
  intros Hall Hne. destruct cs as [|c cs]; [contradiction|].
  inversion Hall as [|? ? Hc _]; subst. destruct c; [contradiction|]. discriminate.
Qed.

Lemma readByte_delivers (cs rest : list (list byte)) (b : byte) (tl : list byte) :
  Forall (fun c => c <> []) cs ->
  concat cs = b :: tl ->
  exists cs',
    readByte {| pending := cs ++ rest; closed := false |} =
      ({| pending := cs' ++ rest; closed := false |}, (b, None)) /\
    Forall (fun c => c <> []) cs' /\
    concat cs' = tl.
Proof.
  intros Hall Hcat. destruct cs as [|c cs]; [discriminate|].
  inversion Hall as [|? ? Hc Hcs]; subst.
  destruct c as [|b0 c]; [contradiction|].
  simpl in Hcat. injection Hcat as -> <-.
  unfold readByte. rewrite <- app_comm_cons, Read_head by discriminate.
  simpl take. simpl drop. rewrite drop_0.
  destruct c as [|b1 c].
  - exists cs. split; [reflexivity|]. split; [assumption|reflexivity].
  - exists ((b1 :: c) :: cs). split; [reflexivity|].
    split; [constructor; [discriminate|assumption]|reflexivity].
Qed.

Lemma readBody_delivers (fuel : nat) (cs rest : list (list byte)) (frame : list byte) :
  Forall (fun c => c <> []) cs -> cs <> [] ->
  Index2 (frame ++ concat cs) xff xd9 = Some (length (frame ++ concat cs) - 2)%nat ->
  (length (concat cs) < fuel)%nat ->
  readBody fuel {| pending := cs ++ rest; closed := false |} frame =
    Some ({| pending := rest; closed := false |}, Ok (frame ++ concat cs)).
Proof.
  revert cs frame. induction fuel as [|fuel IH]; intros cs frame Hall Hne Hidx Hfuel;
    [lia|].
  destruct cs as [|c cs]; [contradiction|].
  inversion Hall as [|? ? Hc Hcs]; subst.
  cbn [readBody]. rewrite <- app_comm_cons, Read_head by assumption.
  assert (Hchunk : (0 <? length (take 4096 c))%nat = true).
  { apply Nat.ltb_lt. rewrite length_take. destruct c; [contradiction|]. simpl. lia. }
  rewrite Hchunk.
  set (cs' := match drop 4096 c with [] => cs | c' => c' :: cs end).
  assert (Hpend : match drop 4096 c with
                  | [] => cs ++ rest
                  | c' => c' :: cs ++ rest
                  end = cs' ++ rest).
  { unfold cs'. destruct (drop 4096 c); reflexivity. }
  rewrite Hpend. cbv beta iota zeta.
  assert (Hcat : take 4096 c ++ concat cs' = concat (c :: cs)).
  { unfold cs'. simpl. rewrite <- (take_drop 4096 c) at 3.
    destruct (drop 4096 c); simpl; rewrite ?app_nil_r, <- ?app_assoc; reflexivity. }
  assert (Hall' : Forall (fun c => c <> []) cs').
  { unfold cs'. destruct (drop 4096 c); [assumption|].
    constructor; [discriminate|assumption]. }
  assert (Hwhole : (frame ++ take 4096 c) ++ concat cs' = frame ++ concat (c :: cs)).
  { rewrite <- app_assoc, Hcat. reflexivity. }
  destruct cs' as [|c1 cs1] eqn:Ecs'.
  - change (concat (@nil (list byte))) with (@nil byte) in Hwhole.
    rewrite app_nil_r in Hwhole. rewrite Hwhole, Hidx.
    pose proof (Index2_bound _ _ _ _ Hidx) as Hb.
    rewrite take_ge by lia. reflexivity.
  - rewrite <- Hwhole in Hidx.
    rewrite (Index2_prefix_None _ _ _ _ Hidx)
      by (apply concat_nonempty; [assumption|discriminate]).
    rewrite IH; try assumption; try discriminate.
    + rewrite Hwhole. reflexivity.
    + assert (Hl : length (take 4096 c ++ concat (c1 :: cs1)) = length (concat (c :: cs)))
        by (rewrite Hcat; reflexivity).
      rewrite length_app in Hl.
      apply Nat.ltb_lt in Hchunk. lia.
Qed.

Lemma scanSOI_delivers (fuel : nat) (junk f : list byte) (cs rest : list (list byte)) :
  delivers junk f cs ->
  (length junk < fuel)%nat ->
  scanSOI fuel {| pending := cs ++ rest; closed := false |} =
    Some ({| pending := rest; closed := false |}, Ok f).
Proof.
  revert fuel cs. induction junk as [|j junk IH]; intros fuel cs (Hall & Hcat & Hjunk & Hjpeg) Hfuel.
  - destruct fuel as [|fuel]; [lia|]. destruct Hjpeg as [[body ->] Hidx].
    simpl in Hcat.
    destruct (readByte_delivers cs rest xff (xd8 :: body) Hall Hcat)
      as (cs1 & Hr1 & Hall1 & Hcat1).
    destruct (readByte_delivers cs1 rest xd8 body Hall1 Hcat1)
      as (cs2 & Hr2 & Hall2 & Hcat2).
    cbn [scanSOI]. rewrite Hr1. simpl negb. cbv iota. rewrite Hr2. simpl negb. cbv iota.
    assert (Hne : cs2 <> []).
    { intros ->. simpl in Hcat2. subst body. discriminate Hidx. }
    rewrite (readBody_delivers _ cs2 rest [xff; xd8] Hall2 Hne).
    + rewrite Hcat2. reflexivity.
    + rewrite Hcat2. exact Hidx.
    + unfold pendingBytes. simpl. rewrite concat_app, length_app. lia.
  - destruct fuel as [|fuel]; [lia|].
    inversion Hjunk as [|? ? Hj Hjunk']; subst. simpl in Hcat.
    destruct (readByte_delivers cs rest j (junk ++ f) Hall Hcat)
      as (cs1 & Hr1 & Hall1 & Hcat1).
    cbn [scanSOI]. rewrite Hr1.
    rewrite (proj2 (eqb_byte_false j xff) Hj). simpl negb. cbv iota.
    apply IH; [|simpl in Hfuel; lia].
    split; [assumption|]. split; [assumption|]. split; assumption.
Qed.

Lemma NextFrame_delivers (s : videoSource) (junk f : list byte)
    (cs rest : list (list byte)) :
  delivers junk f cs ->
  NextFrame (reading s (cs ++ rest)) = (reading s rest, Ok f).
Proof.
  intros Hd. unfold NextFrame, reading. cbn [stdout set_stdout].
  rewrite (scanSOI_delivers _ junk f cs rest Hd).
  - reflexivity.
  - destruct Hd as (_ & Hcat & _). unfold pendingBytes. cbn [pending].
    rewrite concat_app, Hcat, !length_app. lia.
Qed.

(** X2: When the reads of the pipe do not run past the end of a frame, the
    extraction loses nothing: if the stream delivers images one after the
    other, each in its own non-empty chunks and each possibly preceded by
    bytes other than [0xFF], then as many calls as there are images return
    exactly these images, in order, and leave in the pipe exactly the
    chunks that follow them. *)
Theorem NextFrames_deliver (s : videoSource) (fs : list (list byte))
    (css : list (list (list byte))) (rest : list (list byte)) :
  Forall2 (fun f cs => exists junk, delivers junk f cs) fs css ->
  NextFrames (length fs) (reading s (concat css ++ rest)) =
    (reading s rest, map Ok fs).
Proof.
  intros H. induction H as [|f cs fs css [junk Hd] _ IH]; [reflexivity|].
  cbn [length NextFrames concat map]. rewrite <- app_assoc.
  rewrite (NextFrame_delivers s junk f cs (concat css ++ rest) Hd).
  rewrite IH. reflexivity.
Qed.

Lemma NextFrames_deliver_witness :
  NextFrames 2
    (reading (Samples.videoReading [] Running)
       ([[x00; xff]; [xd8; x01]; [xff; xd9]; Samples.jpegB] ++ [[x07]])) =
    (reading (Samples.videoReading [] Running) [[x07]],
     [Ok Samples.jpegA; Ok Samples.jpegB]).
Proof.
  apply (NextFrames_deliver (Samples.videoReading [] Running)
           [Samples.jpegA; Samples.jpegB]
           [[[x00; xff]; [xd8; x01]; [xff; xd9]]; [Samples.jpegB]]
           [[x07]]).
  constructor; [|constructor; [|constructor]].
  - exists [x00]. split; [|split; [|split; [|split]]].
    + repeat constructor; discriminate.
    + reflexivity.
    + repeat constructor; discriminate.
    + exists [x01; xff; xd9]. reflexivity.
    + reflexivity.
  - exists []. split; [|split; [|split; [|split]]].
    + repeat constructor; discriminate.
    + reflexivity.
    + constructor.
    + exists [x02; xff; xd9]. reflexivity.
    + reflexivity.
Defined.

(** *** A marker that follows an [0xFF] byte *)

Lemma scanSOI_fuel (fuel fuel' : nat) (p : Pipe) (r : Pipe * result (list byte)) :
  scanSOI fuel p = Some r -> (fuel <= fuel')%nat -> scanSOI fuel' p = Some r.
Proof.
  revert fuel' p. induction fuel as [|fuel IH]; intros fuel' p; [discriminate|].
  intros H Hle. destruct fuel' as [|fuel']; [lia|].
  cbn [scanSOI] in *.
  destruct (readByte p) as [p1 [b [e|]]]; [exact H|].
  destruct (negb (Byte.eqb b xff)); [apply IH; [exact H|lia]|].
  destruct (readByte p1) as [p2 [b2 [e|]]]; [exact H|].
  destruct (negb (Byte.eqb b2 xd8)); [apply IH; [exact H|lia]|].
  exact H.
Qed.

Lemma scanSOI_skip_junk (junk tl : list byte) (cs : list (list byte)) :
  Forall (fun c => c <> []) cs ->
  concat cs = junk ++ tl ->
  Forall (fun b => b <> xff) junk ->
  exists cs',
    Forall (fun c => c <> []) cs' /\ concat cs' = tl /\
    forall fuel,
      scanSOI (length junk + fuel) {| pending := cs; closed := false |} =
      scanSOI fuel {| pending := cs'; closed := false |}.
Proof.
  revert cs. induction junk as [|j junk IH]; intros cs Hall Hcat Hjunk.
  - exists cs. split; [assumption|]. split; [assumption|]. reflexivity.
  - inversion Hjunk as [|? ? Hj Hjunk']; subst. simpl in Hcat.
    destruct (readByte_delivers cs [] j (junk ++ tl) Hall Hcat)
      as (cs1 & Hr & Hall1 & Hcat1).
    rewrite !app_nil_r in Hr.
    destruct (IH cs1 Hall1 Hcat1 Hjunk') as (cs' & Hall' & Hcat' & Hscan).
    exists cs'. split; [assumption|]. split; [assumption|].
    intros fuel. cbn [length Nat.add scanSOI]. rewrite Hr.
    rewrite (proj2 (eqb_byte_false j xff) Hj). simpl negb. cbv iota.
    apply Hscan.
Qed.

Lemma scanSOI_skip_pair (b2 : byte) (tl : list byte) (cs : list (list byte)) :
  Forall (fun c => c <> []) cs ->
  concat cs = xff :: b2 :: tl ->
  b2 <> xd8 ->
  exists cs',
    Forall (fun c => c <> []) cs' /\ concat cs' = tl /\
    forall fuel,
      scanSOI (S fuel) {| pending := cs; closed := false |} =
      scanSOI fuel {| pending := cs'; closed := false |}.
Proof.
  intros Hall Hcat Hb2.
  destruct (readByte_delivers cs [] xff (b2 :: tl) Hall Hcat)
    as (cs1 & Hr1 & Hall1 & Hcat1).
  destruct (readByte_delivers cs1 [] b2 tl Hall1 Hcat1)
    as (cs2 & Hr2 & Hall2 & Hcat2).
  rewrite !app_nil_r in Hr1, Hr2.
  exists cs2. split; [assumption|]. split; [assumption|].
  intros fuel. cbn [scanSOI]. rewrite Hr1. simpl negb. cbv iota. rewrite Hr2.
  rewrite (proj2 (eqb_byte_false b2 xd8) Hb2). reflexivity.
Qed.

(** X5: The scan for the SOI marker reads two bytes at a time once it has
    met an [0xFF] byte, so it does not find a marker whose first byte
    directly follows an [0xFF] byte.  If the stream is one image preceded
    by such a byte, and the image holds no other [0xFF] byte than those of
    its markers, [NextFrame] reads the whole stream and fails with the
    end-of-file error instead of returning the image. *)
Theorem NextFrame_misses_SOI_after_FF (s : videoSource) (content : list byte)
    (cs : list (list byte)) :
  Forall (fun c => c <> []) cs ->
  concat cs = xff :: (xff :: xd8 :: content ++ [xff; xd9]) ->
  Forall (fun b => b <> xff) content ->
  NextFrame (reading s cs) = (reading s [], Err (Wrap ReadingFromFfmpeg EOF)).
Proof.
  intros Hall Hcat Hcontent.
  destruct (scanSOI_skip_pair xff (xd8 :: content ++ [xff; xd9]) cs Hall Hcat)
    as (cs1 & Hall1 & Hcat1 & Hs1); [discriminate|].
  destruct (scanSOI_skip_junk (xd8 :: content) [xff; xd9] cs1 Hall1)
    as (cs2 & Hall2 & Hcat2 & Hs2).
  { rewrite Hcat1. simpl. reflexivity. }
  { constructor; [discriminate|assumption]. }
  destruct (scanSOI_skip_pair xd9 [] cs2 Hall2 Hcat2)
    as (cs3 & Hall3 & Hcat3 & Hs3); [discriminate|].
  assert (cs3 = []) as ->.
  { destruct cs3 as [|c cs3]; [reflexivity|].
    inversion Hall3 as [|? ? Hc _]; subst. destruct c; [contradiction|discriminate]. }
  assert (Hrun : scanSOI (S (length (xd8 :: content) + S 1))
                   {| pending := cs; closed := false |} =
                 Some ({| pending := []; closed := false |},
                       Err (Wrap ReadingFromFfmpeg EOF))).
  { rewrite Hs1, Hs2, Hs3. reflexivity. }
  unfold NextFrame, reading. cbn [stdout set_stdout].
  rewrite (scanSOI_fuel _ (S (pendingBytes {| pending := cs; closed := false |})) _ _ Hrun).
  - reflexivity.
  - unfold pendingBytes. cbn [pending]. rewrite Hcat. simpl.
    rewrite length_app. simpl. lia.
Qed.

Lemma NextFrame_misses_SOI_after_FF_witness :
  NextFrame (reading (Samples.videoReading [] Running) [[xff]; Samples.jpegA]) =
    (reading (Samples.videoReading [] Running) [], Err (Wrap ReadingFromFfmpeg EOF)).
Proof.
  apply (NextFrame_misses_SOI_after_FF (Samples.videoReading [] Running) [x01]
           [[xff]; Samples.jpegA]).
  - repeat constructor; discriminate.
  - reflexivity.
  - repeat constructor; discriminate.
Defined.

End DemuxFacts.

(** ** Playback of the GIF source *)

Module PlaybackFacts.

Import Gif Playback.

(** X6: Calls made before the delay of the current frame has elapsed all
    return that frame and leave the source as it was, however many they
    are: the playback rate does not depend on the call rate. *)
Theorem gif_NextFrames_within_delay (clock : list (Z * Z)) (s : gifSource)
    (fr : gifFrame) :
  index_at (frames s) (index s) = Some fr ->
  Forall (fun now => Since now.1 (lastAt s) < delay fr) clock ->
  NextFrames clock s = (s, replicate (length clock) (Ok (data fr))).
Proof.
  intros Hfr Hall. induction Hall as [|[now1 now2] clock Hnow _ IH]; [reflexivity|].
  cbn [NextFrames length replicate].
  rewrite (GifFacts.NextFrame_cases now1 now2 s fr Hfr).
  simpl in Hnow.
  destruct (Z.leb_spec (delay fr) (Since now1 (lastAt s))) as [Hle|_]; [lia|].
  rewrite IH. reflexivity.
Qed.

Lemma gif_NextFrames_within_delay_witness :
  NextFrames [(10, 10); (50, 51); (99, 99)] Samples.twoFrames =
    (Samples.twoFrames, replicate 3 (Ok [x01])).
Proof.
  apply (gif_NextFrames_within_delay [(10, 10); (50, 51); (99, 99)]
           Samples.twoFrames {| data := [x01]; delay := 100 |} eq_refl).
  repeat constructor.
Defined.

Lemma frameAfter_zero (s : gifSource) :
  valid s -> frameAfter s 0 = index_at (frames s) (index s).
Proof.
  intros [_ Hidx]. unfold frameAfter.
  rewrite Z.add_0_r, Z.mod_small by lia. reflexivity.
Qed.

(** X7: When every call finds the delay elapsed, the calls walk through the
    frames in order and wrap around after the last one: the call number
    [k] returns the frame [k] positions after the starting one,
    cyclically, and after the run the index has moved by the number of
    calls modulo the frame count. *)
Theorem gif_playback_order (clock : list (Z * Z)) (s : gifSource) :
  valid s ->
  allElapsed clock s = true ->
  index (NextFrames clock s).1 =
    (index s + Z.of_nat (length clock)) mod Z.of_nat (length (frames s)) /\
  frames (NextFrames clock s).1 = frames s /\
  forall k, (k < length clock)%nat ->
    exists fr, frameAfter s k = Some fr /\
               (NextFrames clock s).2 !! k = Some (Ok (data fr)).
Proof.
  revert s. induction clock as [|[now1 now2] clock IH]; intros s Hv Hel.
  - simpl. destruct Hv as [_ Hidx]. rewrite Z.add_0_r, Z.mod_small by lia.
    split; [reflexivity|]. split; [reflexivity|]. intros k Hk. simpl in Hk. lia.
  - cbn [allElapsed] in Hel.
    destruct (index_at (frames s) (index s)) as [fr|] eqn:Hfr; [|discriminate].
    apply andb_true_iff in Hel as [Hnow Hrest].
    pose proof (GifFacts.NextFrame_cases now1 now2 s fr Hfr) as Hstep.
    rewrite Hnow in Hstep.
    destruct (GifFacts.NextFrame_valid now1 now2 s Hv) as (Hv1 & Hf1 & _ & _).
    cbn [NextFrames]. rewrite Hstep in *. cbn [fst snd] in *.
    set (s1 := {| frames := frames s;
                  index := (index s + 1) mod Z.of_nat (length (frames s));
                  lastAt := now2 |}) in *.
    destruct (IH s1 Hv1 Hrest) as (Hidx & Hfr' & Hout).
    destruct (NextFrames clock s1) as [s2 rs] eqn:E2. cbn [fst snd] in *.
    split; [|split].
    + rewrite Hidx. unfold s1. cbn [index frames length].
      rewrite Zplus_mod_idemp_l. f_equal. lia.
    + rewrite Hfr'. reflexivity.
    + intros [|k] Hk.
      * exists fr. rewrite frameAfter_zero by assumption. split; [exact Hfr|reflexivity].
      * destruct (Hout k ltac:(simpl in Hk; lia)) as (fr' & Hfa & Hlook).
        exists fr'. split; [|exact Hlook].
        rewrite <- Hfa. unfold frameAfter, s1. cbn [index frames].
        rewrite Zplus_mod_idemp_l. f_equal. f_equal. lia.
Qed.

Lemma gif_playback_order_witness :
  index (NextFrames [(100, 100); (200, 200); (300, 300)] Samples.twoFrames).1 = 1.
Proof.
  destruct (gif_playback_order [(100, 100); (200, 200); (300, 300)] Samples.twoFrames)
    as (Hidx & _ & _).
  - split; simpl; lia.
  - vm_compute. reflexivity.
  - exact Hidx.
Defined.

End PlaybackFacts.

(** ** Construction of the sources *)

Module ConstructionFacts.

Import Image Gif Video Media.

(** X8: The conversion of a GIF delay to a duration does not overflow for any
    delay a GIF file can hold (16 bits, hundredths of a second), nor for
    any delay up to 922337203685: the result is the delay times ten
    million nanoseconds, and it is zero only for a zero delay. *)
Theorem delayOfCentiseconds_exact (d : Z) :
  -922337203685 <= d <= 922337203685 ->
  delayOfCentiseconds d = d * 10000000 /\
  (delayOfCentiseconds d = 0 <-> d = 0).
Proof.
  intros Hd.
  assert (Hw : forall z, - 2 ^ 63 <= z < 2 ^ 63 -> wrap64 z = z).
  { intros z Hz. unfold wrap64. rewrite Z.mod_small; lia. }
  assert (He : delayOfCentiseconds d = d * 10000000).
  { unfold delayOfCentiseconds, Millisecond.
    rewrite (Hw (d * 10)) by lia. rewrite Hw by lia. lia. }
  split; [exact He|]. rewrite He. lia.
Qed.

Lemma delayOfCentiseconds_exact_witness :
  delayOfCentiseconds 65535 = 655350000000.
Proof.
  destruct (delayOfCentiseconds_exact 65535) as [He _]; [lia|]. exact He.
Defined.

(** The loop of [newGIFSource] keeps the frames built so far and appends
    one frame per image, in order. *)
Lemma encodeFrames_spec (rt : Runtime) (images : list (Pixels rt))
    (delays : list Z) (fallbackDelay : Z) (i : nat) (acc out : list gifFrame) :
  encodeFrames rt images delays fallbackDelay i acc = Ok out ->
  exists built,
    out = acc ++ built /\
    length built = length images /\
    forall j img, images !! j = Some img ->
      exists fr d,
        built !! j = Some fr /\
        jpegEncode rt img 90 = Ok (data fr) /\
        delays !! (i + j)%nat = Some d /\
        delay fr = if delayOfCentiseconds d =? 0 then fallbackDelay
                   else delayOfCentiseconds d.
Proof.
  revert i acc. induction images as [|img images IH]; intros i acc; simpl.
  - intros [= <-]. exists []. rewrite app_nil_r.
    split; [reflexivity|]. split; [reflexivity|]. intros j x Hx. discriminate.
  - destruct (jpegEncode rt img 90) as [jpg|e|] eqn:Ejpg; try discriminate.
    destruct (delays !! i) as [d|] eqn:Ed; try discriminate.
    intros H. destruct (IH _ _ H) as (built & -> & Hlen & Hall).
    exists ({| data := jpg;
               delay := if delayOfCentiseconds d =? 0 then fallbackDelay
                        else delayOfCentiseconds d |} :: built).
    split; [rewrite <- app_assoc; reflexivity|].
    split; [simpl; rewrite Hlen; reflexivity|].
    intros [|j] x Hx.
    + simpl in Hx. injection Hx as <-.
      eexists _, d. split; [reflexivity|]. split; [exact Ejpg|].
      split; [rewrite Nat.add_0_r; exact Ed|reflexivity].
    + simpl in Hx. destruct (Hall j x Hx) as (fr & d' & H1 & H2 & H3 & H4).
      exists fr, d'. split; [exact H1|]. split; [exact H2|].
      split; [|exact H4]. rewrite <- H3. f_equal. lia.
Qed.

(** X9: A GIF source that was constructed holds one frame per image of the
    file, in the order of the file: frame [i] is image [i] encoded as JPEG
    at quality 90, with the delay of image [i] converted to a duration, or
    the fallback [1s / frameRate] when that delay is zero.  Playback starts
    at the first frame, at the time of construction. *)
Theorem newGIFSource_frames (rt : Runtime) (h : Host) (path : string)
    (frameRate : Z) (s : gifSource) :
  newGIFSource rt h path frameRate = Ok s ->
  exists content images delays,
    files h !! path = Some content /\
    gifDecodeAll rt content = Ok (images, delays) /\
    length (frames s) = length images /\
    index s = 0 /\ lastAt s = now h /\
    forall i img, images !! i = Some img ->
      exists fr d,
        frames s !! i = Some fr /\
        jpegEncode rt img 90 = Ok (data fr) /\
        delays !! i = Some d /\
        delay fr = if delayOfCentiseconds d =? 0
                   then durationOfQuotient rt Second frameRate
                   else delayOfCentiseconds d.
Proof.
  unfold newGIFSource, osOpen.
  destruct (files h !! path) as [content|] eqn:Hfile; [|discriminate].
  destruct (gifDecodeAll rt content) as [[images delays]|e|] eqn:Hdec; try discriminate.
  destruct (length images =? 0)%nat; try discriminate.
  destruct (encodeFrames rt images delays _ 0 []) as [out|e|] eqn:Henc;
    try discriminate.
  intros [= <-]. cbn [frames index lastAt].
  destruct (encodeFrames_spec _ _ _ _ _ _ _ Henc) as (built & -> & Hlen & Hall).
  exists content, images, delays.
  split; [first [reflexivity|assumption]|].
  split; [first [reflexivity|assumption]|].
  split; [exact Hlen|]. split; [reflexivity|]. split; [reflexivity|].
  exact Hall.
Qed.

Lemma newGIFSource_frames_witness :
  exists s content images delays,
    newGIFSource Samples.toyRuntime Samples.studio "/media/loop.gif" 25 = Ok s /\
    gifDecodeAll Samples.toyRuntime content = Ok (images, delays) /\
    length (frames s) = length images.
Proof.
  eexists.
  destruct (newGIFSource_frames Samples.toyRuntime Samples.studio "/media/loop.gif" 25 _
              ltac:(vm_compute; reflexivity))
    as (content & images & delays & _ & Hdec & Hlen & _).
  exists content, images, delays.
  split; [reflexivity|]. split; [exact Hdec|exact Hlen].
Defined.

(** X10: A static image end to end: when the file exists, has an image
    extension and decodes, [Open] returns a source whose every frame is
    the decoded picture encoded once as JPEG at quality 92. *)
Theorem Open_static_image (rt : Runtime) (h : Host) (path : string) (frameRate : Z)
    (content : list byte) (img : Pixels rt) (jpg : list byte)
    (clock : list (Z * Z)) :
  ToLower rt (Ext rt path) ∈ staticExts ->
  files h !! path = Some content ->
  imageDecode rt content = Ok img ->
  jpegEncode rt img 92 = Ok jpg ->
  Open rt h path frameRate = Ok (ImageSource {| frame := jpg |}) /\
  Media.NextFrames clock (ImageSource {| frame := jpg |}) =
    (ImageSource {| frame := jpg |}, replicate (length clock) (Ok jpg)).
Proof.
  intros Hext Hfile Hdec Henc. split.
  - unfold Open. rewrite (bool_decide_eq_true_2 _ Hext).
    unfold newImageSource, osOpen. rewrite Hfile, Hdec, Henc. reflexivity.
  - apply (MediaFacts.image_NextFrames_lift clock {| frame := jpg |}).
Qed.

Lemma Open_static_image_witness :
  Open Samples.toyRuntime Samples.studio "/media/still.jpg" 30 =
    Ok (ImageSource {| frame := Samples.jpegA |}).
Proof.
  apply (Open_static_image Samples.toyRuntime Samples.studio "/media/still.jpg" 30
           [x01] [x01] Samples.jpegA []).
  - apply list_elem_of_In. vm_compute. auto.
  - vm_compute. reflexivity.
  - reflexivity.
  - reflexivity.
Defined.

End ConstructionFacts.

(** ** The dispatcher and the list of supported extensions *)

Module DispatchFacts.

Import Image Gif Video Media.

Lemma Open_by_class (rt : Runtime) (h : Host) (path : string) (frameRate : Z) :
  let ext := ToLower rt (Ext rt path) in
  (ext ∈ staticExts ->
     Open rt h path frameRate = mapResult ImageSource (newImageSource rt h path)) /\
  (ext ∈ gifExts ->
     Open rt h path frameRate = mapResult GifSource (newGIFSource rt h path frameRate)) /\
  (ext ∈ videoExts ->
     Open rt h path frameRate = mapResult VideoSource (newVideoSource h path frameRate)) /\
  (ext ∉ SupportedExtensions ->
     Open rt h path frameRate = Err (Unsupported ext (Join SupportedExtensions ", "))).
Proof.
  intros ext. destruct (MediaFacts.classes_disjoint ext) as [Hgif Hvideo].
  split; [|split; [|split]].
  - intros Hs. unfold Open. fold ext. rewrite (bool_decide_eq_true_2 _ Hs). reflexivity.
  - intros Hg. unfold Open. fold ext.
    rewrite (bool_decide_eq_false_2 _ (Hgif Hg)), (bool_decide_eq_true_2 _ Hg).
    reflexivity.
  - intros Hv. destruct (Hvideo Hv) as [Hns Hng]. unfold Open. fold ext.
    rewrite (bool_decide_eq_false_2 _ Hns), (bool_decide_eq_false_2 _ Hng),
            (bool_decide_eq_true_2 _ Hv).
    reflexivity.
  - intros Hnot. rewrite MediaFacts.SupportedExtensions_classes in Hnot.
    rewrite !elem_of_app in Hnot.
    unfold Open. fold ext. repeat case_bool_decide; tauto.
Qed.

Lemma supported_cases (ext : string) :
  ext ∈ SupportedExtensions <->
  ext ∈ staticExts \/ ext ∈ gifExts \/ ext ∈ videoExts.
Proof.
  rewrite MediaFacts.SupportedExtensions_classes, !elem_of_app. reflexivity.
Qed.

Lemma newImageSource_not_Unsupported (rt : Runtime) (h : Host) (path : string)
    (e : error) :
  newImageSource rt h path = Err e -> kindOf e <> UnsupportedFormat.
Proof.
  unfold newImageSource.
  destruct (osOpen h path) as [content|e0|]; [|intros [= <-]; discriminate|discriminate].
  destruct (imageDecode rt content) as [img|e0|];
    [|intros [= <-]; discriminate|discriminate].
  destruct (jpegEncode rt img 92) as [jpg|e0|];
    [discriminate|intros [= <-]; discriminate|discriminate].
Qed.

Lemma newGIFSource_not_Unsupported (rt : Runtime) (h : Host) (path : string)
    (frameRate : Z) (e : error) :
  newGIFSource rt h path frameRate = Err e -> kindOf e <> UnsupportedFormat.
Proof.
  unfold newGIFSource.
  destruct (osOpen h path) as [content|e0|]; [|intros [= <-]; discriminate|discriminate].
  destruct (gifDecodeAll rt content) as [[images delays]|e0|];
    [|intros [= <-]; discriminate|discriminate].
  destruct (length images =? 0)%nat; [intros [= <-]; discriminate|].
  generalize (@nil gifFrame) as acc. generalize O as i.
  generalize (durationOfQuotient rt Second frameRate) as fb.
  induction images as [|img images IH]; intros fb i acc; simpl; [discriminate|].
  destruct (jpegEncode rt img 90) as [jpg|e0|];
    [|intros [= <-]; discriminate|discriminate].
  destruct (delays !! i) as [d|]; [|discriminate].
  apply IH.
Qed.

Lemma newVideoSource_not_Unsupported (h : Host) (path : string) (frameRate : Z)
    (e : error) :
  newVideoSource h path frameRate = Err e -> kindOf e <> UnsupportedFormat.
Proof.
  unfold newVideoSource, spawn.
  destruct (ffmpegPath h); [|intros [= <-]; discriminate].
  destruct (pipeFault h); [intros [= <-]; discriminate|].
  destruct (startFault h); [intros [= <-]; discriminate|].
  discriminate.
Qed.

(** X11: The exported list [SupportedExtensions] is exactly the set of
    extensions that [Open] accepts: [Open] fails with [UnsupportedFormat]
    if and only if the lower-cased extension of the path is not in the
    list, on every host. *)
Theorem Open_unsupported_iff (rt : Runtime) (h : Host) (path : string)
    (frameRate : Z) :
  failsWith (Open rt h path frameRate) UnsupportedFormat <->
  ToLower rt (Ext rt path) ∉ SupportedExtensions.
Proof.
  destruct (Open_by_class rt h path frameRate) as (HS & HG & HV & HU).
  split.
  - intros (e & He & Hk) Hin. apply supported_cases in Hin as [Hin|[Hin|Hin]].
    + rewrite (HS Hin) in He.
      destruct (newImageSource rt h path) as [s|e'|] eqn:E; simpl in He; try discriminate.
      injection He as <-. exact (newImageSource_not_Unsupported _ _ _ _ E Hk).
    + rewrite (HG Hin) in He.
      destruct (newGIFSource rt h path frameRate) as [s|e'|] eqn:E; simpl in He;
        try discriminate.
      injection He as <-. exact (newGIFSource_not_Unsupported _ _ _ _ _ E Hk).
    + rewrite (HV Hin) in He.
      destruct (newVideoSource h path frameRate) as [s|e'|] eqn:E; simpl in He;
        try discriminate.
      injection He as <-. exact (newVideoSource_not_Unsupported _ _ _ _ E Hk).
  - intros Hnot. rewrite (HU Hnot). eexists. split; reflexivity.
Qed.

(** X12: The kind of source [Open] returns is decided by the class of the
    extension alone: a static image source only for the five image
    extensions, a GIF source only for [.gif], a video source only for the
    eight video extensions; the content of the file plays no part. *)
Theorem Open_Ok_class (rt : Runtime) (h : Host) (path : string) (frameRate : Z)
    (src : Source) :
  Open rt h path frameRate = Ok src ->
  match src with
  | ImageSource _ => ToLower rt (Ext rt path) ∈ staticExts
  | GifSource _ => ToLower rt (Ext rt path) ∈ gifExts
  | VideoSource _ => ToLower rt (Ext rt path) ∈ videoExts
  end.
Proof.
  unfold Open. repeat case_bool_decide; unfold mapResult; intros Hopen.
  - destruct (newImageSource rt h path); try discriminate.
    injection Hopen as <-. assumption.
  - destruct (newGIFSource rt h path frameRate); try discriminate.
    injection Hopen as <-. assumption.
  - destruct (newVideoSource h path frameRate); try discriminate.
    injection Hopen as <-. assumption.
  - discriminate.
Qed.

Lemma Open_Ok_class_witness :
  ToLower Samples.toyRuntime (Ext Samples.toyRuntime "/media/loop.gif") ∈ gifExts.
Proof.
  destruct (Open Samples.toyRuntime Samples.studio "/media/loop.gif" 30) as [src| |] eqn:E.
  - pose proof (Open_Ok_class _ _ _ _ _ E) as H.
    vm_compute in E. injection E as <-. exact H.
  - vm_compute in E. discriminate.
  - vm_compute in E. discriminate.
Defined.

Lemma list_ascii_of_string_app (a b : string) :
  list_ascii_of_string (a +:+ b) = list_ascii_of_string a ++ list_ascii_of_string b.
Proof. induction a as [|c a IH]; simpl; [reflexivity|]. rewrite IH. reflexivity. Qed.

Lemma extScan_no_dot (rt : Runtime) (name tl after : list ascii) :
  Forall (fun c => c <> "."%char) name ->
  tl = [] \/ (exists sep tl', tl = sep :: tl' /\ isPathSeparator rt sep = true) ->
  extScan rt (name ++ tl) after = [].
Proof.
  intros Hname Htl. revert after.
  induction Hname as [|c name Hc _ IH]; intros after; simpl.
  - destruct Htl as [->|(sep & tl' & -> & Hsep)]; simpl; [reflexivity|].
    rewrite Hsep. reflexivity.
  - destruct (isPathSeparator rt c); [reflexivity|].
    apply Ascii.eqb_neq in Hc. rewrite Hc. apply IH.
Qed.

(** X13: A path whose last element holds no dot has no extension, even when a
    directory of the path has a dot in its name, and [Open] rejects it as
    an unsupported file type with the empty extension, on every host. *)
Theorem Open_no_extension (rt : Runtime) (h : Host) (dir name : string)
    (frameRate : Z) :
  Forall (fun c => c <> "."%char) (list_ascii_of_string name) ->
  dir = "" \/ (exists d sep, dir = d +:+ String sep "" /\ isPathSeparator rt sep = true) ->
  Ext rt (dir +:+ name) = "" /\
  Open rt h (dir +:+ name) frameRate =
    Err (Unsupported "" (Join SupportedExtensions ", ")).
Proof.
  intros Hname Hdir.
  assert (HE : Ext rt (dir +:+ name) = "").
  { unfold Ext. rewrite list_ascii_of_string_app, rev_app_distr.
    rewrite extScan_no_dot; [reflexivity| |].
    - apply Forall_rev. exact Hname.
    - destruct Hdir as [->|(d & sep & -> & Hsep)]; [left; reflexivity|].
      right. exists sep, (rev (list_ascii_of_string d)).
      rewrite list_ascii_of_string_app, rev_app_distr. simpl. auto. }
  split; [exact HE|].
  destruct (Open_by_class rt h (dir +:+ name) frameRate) as (_ & _ & _ & HU).
  rewrite HE in HU. apply HU.
  intros Hin. apply list_elem_of_In in Hin. vm_compute in Hin.
  intuition discriminate.
Qed.

Lemma Open_no_extension_witness :
  Open Samples.toyRuntime Samples.studio ("/media/v1.2/" +:+ "README") 30 =
    Err (Unsupported "" (Join SupportedExtensions ", ")).
Proof.
  apply (Open_no_extension Samples.toyRuntime Samples.studio "/media/v1.2/" "README" 30).
  - repeat constructor; discriminate.
  - right. exists "/media/v1.2", "/"%char. split; reflexivity.
Defined.

End DispatchFacts.

(** ** The lifecycle of a session *)

Module LifecycleFacts.

Import Media Server.

Lemma Stop_not_running (env : Env) (s : Server) :
  started (Stop env s).1.1 = false.
Proof.
  unfold Stop. destruct (started s) eqn:Hs; simpl; [|exact Hs].
  destruct (Media.Close (killExited env) (source s)) as [src' [e|]]; simpl;
    [reflexivity|].
  destruct (httpSrv s); reflexivity.
Qed.

(** X14: [Stop] is idempotent: whatever the first [Stop] did and returned, a
    second [Stop] returns success, calls nothing and changes nothing. *)
Theorem Stop_twice (env env' : Env) (s : Server) :
  Stop env' (Stop env s).1.1 = ((Stop env s).1.1, Ok tt, []).
Proof.
  pose proof (Stop_not_running env s) as Hs.
  unfold Stop at 1. rewrite Hs. reflexivity.
Qed.

Lemma Close_not_video (killExited : option error) (src : Source) :
  isVideo src = false -> Media.Close killExited src = (src, None).
Proof. destruct src; [reflexivity|reflexivity|discriminate]. Qed.

Lemma New_Ok_inv (rt : Runtime) (h : Host) (c : Config) (s : Server) :
  New rt h c = Ok s ->
  started s = false /\ httpSrv s = None /\ cancel s = false /\
  FilePath (cfg s) = FilePath c /\ Port (cfg s) = Port c /\
  FrameRate (cfg s) = (if FrameRate c =? 0 then 30 else FrameRate c) /\
  Open rt h (FilePath c) (FrameRate (cfg s)) = Ok (source s).
Proof.
  unfold New.
  destruct (FrameRate c =? 0) eqn:Hz; simpl;
    match goal with
    | |- context [Open rt h ?p ?f] =>
        destruct (Open rt h p f) as [src|e|] eqn:Hopen; try discriminate
    end;
    intros [= <-]; simpl; rewrite ?Hz; repeat split; assumption.
Qed.

(** X15: The life of a session made by [New]: it is not running; [Start] marks
    it running and serves on the configured port, returning the error the
    listener ends with; and when its source is a static image or a GIF,
    [Stop] then cancels the streaming context, closes the source and
    shuts the listener down, in this order, returns the result of the
    shutdown and leaves the session not running, with its source as it
    was. *)
Theorem session_lifecycle (rt : Runtime) (h : Host) (c : Config) (env : Env)
    (s : Server) :
  New rt h c = Ok s ->
  IsRunning s = false /\
  IsRunning (Start env s).1.1 = true /\
  (Start env s).1.2 = Err (serveFault env) /\
  (Start env s).2 = [ListenAndServe (Port c)] /\
  (isVideo (source s) = false ->
     Stop env (Start env s).1.1 =
       ({| cfg := cfg s; source := source s;
           httpSrv := Some {| Addr := Port c |};
           started := false; cancel := true |},
        match shutdownFault env with Some e => Err e | None => Ok tt end,
        [CancelContext; CloseSource; ShutdownListener])).
Proof.
  intros Hnew.
  destruct (New_Ok_inv rt h c s Hnew) as (Hst & _ & _ & _ & Hport & _ & _).
  unfold IsRunning, Start. rewrite Hst, Hport. cbn [fst snd started].
  repeat (split; [reflexivity|]).
  intros Hkind. unfold Stop. cbn [started negb cfg source httpSrv cancel].
  rewrite (Close_not_video _ _ Hkind). reflexivity.
Qed.

Lemma session_lifecycle_witness :
  exists s,
    New Samples.toyRuntime Samples.studio
        {| FilePath := "/media/still.jpg"; Port := 8080; FrameRate := 5 |} = Ok s /\
    (Stop Samples.strictEnv (Start Samples.strictEnv s).1.1).2 =
      [CancelContext; CloseSource; ShutdownListener].
Proof.
  eexists. split.
  - vm_compute. reflexivity.
  - destruct (session_lifecycle Samples.toyRuntime Samples.studio
                {| FilePath := "/media/still.jpg"; Port := 8080; FrameRate := 5 |}
                Samples.strictEnv _ ltac:(vm_compute; reflexivity))
      as (_ & _ & _ & _ & Hstop).
    rewrite (Hstop eq_refl). reflexivity.
Defined.



(** X17: [New] fails exactly when [Open] fails, and then returns the error of
    [Open] wrapped as a failure to open the media, and no session. *)
Theorem New_fails_iff_Open_fails (rt : Runtime) (h : Host) (c : Config) (e : error) :
  New rt h c = Err e <->
  exists e0,
    Open rt h (FilePath c) (if FrameRate c =? 0 then 30 else FrameRate c) = Err e0 /\
    e = Wrap OpeningMedia e0.
Proof.
  unfold New. destruct (FrameRate c =? 0); simpl;
    match goal with
    | |- context [Open rt h ?p ?f] => destruct (Open rt h p f) as [src|e0|]
    end;
    (split; [intros H; try discriminate; injection H as <-; eauto
            |intros (e1 & H1 & ->); try discriminate; injection H1 as <-; reflexivity]).
Qed.

End LifecycleFacts.

(** ** The multipart stream *)

Module StreamFacts.

Import Media Server Stream.

Lemma list_byte_of_string_app (a b : string) :
  list_byte_of_string (a +:+ b) = list_byte_of_string a ++ list_byte_of_string b.
Proof.
  unfold list_byte_of_string. rewrite DispatchFacts.list_ascii_of_string_app.
  apply map_app.
Qed.

Lemma list_byte_of_string_inj (a b : string) :
  list_byte_of_string a = list_byte_of_string b -> a = b.
Proof.
  intros H. rewrite <- (string_of_list_byte_of_string a), H.
  apply string_of_list_byte_of_string.
Qed.

(** No byte of a printed number is a carriage return. *)
Lemma uint_no_CR (u : Decimal.uint) :
  Forall (fun b => b <> x0d) (list_byte_of_string (NilEmpty.string_of_uint u)).
Proof.
  induction u; simpl; constructor; try discriminate; assumption.
Qed.

Lemma formatInt_no_CR (z : Z) :
  Forall (fun b => b <> x0d) (list_byte_of_string (formatInt z)).
Proof.
  assert (Hu : forall u, Forall (fun b => b <> x0d)
                           (list_byte_of_string (NilZero.string_of_uint u))).
  { intros u. destruct u; try apply uint_no_CR.
    simpl. constructor; [discriminate|constructor]. }
  unfold formatInt. destruct (Z.to_int z); simpl.
  - apply Hu.
  - constructor; [discriminate|apply Hu].
Qed.

Lemma formatInt_inj (z1 z2 : Z) : formatInt z1 = formatInt z2 -> z1 = z2.
Proof.
  unfold formatInt. intros H.
  assert (Hi : forall z, NilZero.int_of_string (NilZero.string_of_int (Z.to_int z))
                         = Some (Z.to_int z)).
  { intros z. apply NilZero.isi; destruct z; simpl; try discriminate;
      intros [= Hp]; exact (DecimalPos.Unsigned.to_uint_nonnil _ Hp). }
  pose proof (Hi z1) as H1. rewrite H, Hi in H1. injection H1 as H1.
  rewrite <- (DecimalZ.of_to z1), <- (DecimalZ.of_to z2), H1. reflexivity.
Qed.

(** Two strings without carriage return, each followed by one, are told
    apart at the first carriage return. *)
Lemma split_at_CR (d1 d2 r1 r2 : list byte) :
  Forall (fun b => b <> x0d) d1 -> Forall (fun b => b <> x0d) d2 ->
  d1 ++ x0d :: r1 = d2 ++ x0d :: r2 -> d1 = d2 /\ r1 = r2.
Proof.
  intros H1. revert d2. induction H1 as [|a d1 Ha _ IH]; intros d2 H2 Heq.
  - destruct H2 as [|b d2 Hb _]; simpl in Heq.
    + injection Heq as ->. split; reflexivity.
    + injection Heq as <- _. contradiction.
  - destruct H2 as [|b d2 Hb H2]; simpl in Heq.
    + injection Heq as -> _. contradiction.
    + injection Heq as -> Heq. destruct (IH d2 H2 Heq) as [-> ->].
      split; reflexivity.
Qed.

Lemma part_app (frame t : list byte) :
  part frame ++ t =
    list_byte_of_string ("--mjpegframe" +:+ CRLF)
    ++ list_byte_of_string ("Content-Type: image/jpeg" +:+ CRLF)
    ++ list_byte_of_string "Content-Length: "
    ++ list_byte_of_string (formatInt (Z.of_nat (length frame)))
    ++ x0d :: x0a :: x0d :: x0a :: (frame ++ x0d :: x0a :: t).
Proof.
  unfold part, partHeader. rewrite !list_byte_of_string_app, <- !app_assoc.
  reflexivity.
Qed.

(** X18: The parts are self-delimiting: a byte string that starts with a part
    starts with one part only.  The frame of the part and the bytes that
    follow it are determined by the string, whatever bytes the frame
    holds. *)
Theorem part_prefix_unique (f1 f2 t1 t2 : list byte) :
  part f1 ++ t1 = part f2 ++ t2 -> f1 = f2 /\ t1 = t2.
Proof.
  rewrite !part_app. intros H.
  do 3 apply app_inv_head in H.
  apply split_at_CR in H as [Hlen H]; try apply formatInt_no_CR.
  apply list_byte_of_string_inj, formatInt_inj, Nat2Z.inj in Hlen.
  injection H as H.
  apply app_inj_1 in H as [-> H]; [|exact Hlen].
  injection H as ->. split; reflexivity.
Qed.

Lemma part_prefix_unique_witness :
  Samples.jpegA = Samples.jpegA /\ part Samples.jpegB = part Samples.jpegB.
Proof.
  apply (part_prefix_unique Samples.jpegA Samples.jpegA
           (part Samples.jpegB) (part Samples.jpegB)).
  reflexivity.
Defined.

Lemma part_nonempty (f : list byte) : part f <> [].
Proof.
  intros H. pose proof (part_app f []) as Hp. rewrite H in Hp. discriminate Hp.
Qed.

(** X19: The body of a stream determines the frames it was written from: two
    sequences of frames with the same concatenation of parts are the same
    sequence. *)
Theorem parts_determine_frames (fs1 fs2 : list (list byte)) :
  concat (map part fs1) = concat (map part fs2) -> fs1 = fs2.
Proof.
  revert fs2. induction fs1 as [|f1 fs1 IH]; intros [|f2 fs2]; cbn [map concat];
    intros H.
  - reflexivity.
  - symmetry in H. apply app_eq_nil in H as [H _]. destruct (part_nonempty _ H).
  - apply app_eq_nil in H as [H _]. destruct (part_nonempty _ H).
  - apply part_prefix_unique in H as [-> H]. rewrite (IH _ H). reflexivity.
Qed.

Lemma parts_determine_frames_witness :
  [Samples.jpegA; Samples.jpegB] = [Samples.jpegA; Samples.jpegB].
Proof.
  apply (parts_determine_frames [Samples.jpegA; Samples.jpegB]
           [Samples.jpegA; Samples.jpegB]).
  reflexivity.
Defined.

Lemma streamLoop_body (signals : list Signal) (src : Source) (w : ResponseWriter) :
  let frames := framesUntilFailure (Media.NextFrames (ticksBeforeDone signals) src).2 in
  let r := streamLoop signals src w in
  body r.1.2 = body w ++ concat (map part frames) /\
  flushes r.1.2 = (flushes w + length frames)%nat /\
  header r.1.2 = header w /\
  errorReply r.1.2 = errorReply w /\
  (r.2 = Waiting <-> length frames = length signals).
Proof.
  revert src w. induction signals as [|[|now1 now2] signals IH]; intros src w.
  - simpl. rewrite app_nil_r, Nat.add_0_r. repeat split; reflexivity.
  - simpl. rewrite app_nil_r, Nat.add_0_r. repeat split; try reflexivity; discriminate.
  - cbn [streamLoop ticksBeforeDone Media.NextFrames].
    destruct (Media.NextFrame now1 now2 src) as [src1 [f|e|]].
    + specialize (IH src1 (flush (write (part f) w))).
      destruct (Media.NextFrames (ticksBeforeDone signals) src1) as [src2 rs].
      cbn [fst snd framesUntilFailure map concat length] in *.
      destruct IH as (Hb & Hf & Hh & He & Ho).
      split; [rewrite Hb; simpl; rewrite <- app_assoc; reflexivity|].
      split; [rewrite Hf; simpl; lia|].
      split; [rewrite Hh; reflexivity|].
      split; [rewrite He; reflexivity|].
      rewrite Ho. split; intros H; lia.
    + destruct (Media.NextFrames (ticksBeforeDone signals) src1) as [src2 rs].
      simpl. rewrite app_nil_r, Nat.add_0_r.
      repeat split; try reflexivity; discriminate.
    + destruct (Media.NextFrames (ticksBeforeDone signals) src1) as [src2 rs].
      simpl. rewrite app_nil_r, Nat.add_0_r.
      repeat split; try reflexivity; discriminate.
Qed.

(** X20: What a stream request writes.  For a writer that can flush and a
    positive tick interval, the handler pulls one frame per tick until the
    request context is done or a pull fails, and the response body grows by
    exactly one part per frame pulled, in order, each followed by one
    flush; nothing is written for the failing pull or after it.  The
    handler is still waiting for a signal only if every signal so far was a
    tick that gave a frame. *)
Theorem handleStream_body (rt : Runtime) (signals : list Signal) (s : Server)
    (w : ResponseWriter) :
  canFlush w = true ->
  0 < tickInterval rt s ->
  let frames :=
    framesUntilFailure (Media.NextFrames (ticksBeforeDone signals) (source s)).2 in
  let r := handleStream rt signals s w in
  body r.1.2 = body w ++ concat (map part frames) /\
  flushes r.1.2 = (flushes w + length frames)%nat /\
  header r.1.2 !! "Content-Type" =
    Some "multipart/x-mixed-replace; boundary=mjpegframe" /\
  errorReply r.1.2 = errorReply w /\
  (r.2 = Waiting <-> length frames = length signals).
Proof.
  intros Hflush Htick frames r. unfold r, handleStream.
  cbn [canFlush setHeader]. rewrite Hflush. cbn [negb].
  destruct (Z.leb_spec (tickInterval rt s) 0) as [Hle|_]; [lia|].
  set (w3 := setHeader "Connection" "keep-alive" _).
  pose proof (streamLoop_body signals (source s) w3) as H.
  destruct (streamLoop signals (source s) w3) as [[src' w'] out].
  cbn [fst snd] in *. destruct H as (Hb & Hf & Hh & He & Ho).
  split; [exact Hb|]. split; [exact Hf|].
  split; [|split; [exact He|exact Ho]].
  rewrite Hh. unfold w3. cbn [header setHeader].
  rewrite lookup_insert_ne by discriminate.
  rewrite lookup_insert_ne by discriminate.
  apply lookup_insert_eq.
Qed.

Lemma handleStream_body_witness :
  body (handleStream Samples.toyRuntime [Tick 0 0; Tick 1 1; Done]
          Samples.idleSession
          {| header := ∅; body := []; flushes := 0;
             errorReply := None; canFlush := true |}).1.2 =
    part Samples.jpegA ++ part Samples.jpegA.
Proof.
  destruct (handleStream_body Samples.toyRuntime [Tick 0 0; Tick 1 1; Done]
              Samples.idleSession
              {| header := ∅; body := []; flushes := 0;
                 errorReply := None; canFlush := true |})
    as (Hb & _).
  - reflexivity.
  - vm_compute. reflexivity.
  - rewrite Hb. vm_compute. reflexivity.
Defined.

End StreamFacts.
